(** * A multilevel key-value cache with pluggable eviction policies

    Shallow embedding of [CachingSystem.cpp]: the two eviction policies
    ([LRUEvictionPolicy], [LFUEvictionPolicy]), a single [CacheLevel] and the
    [MultilevelCacheSystem] that chains levels.

    Conventions of the embedding.
    - [std::string] is [string]; [std::unordered_map<string, V>] is
      [gmap string V]; [std::vector] and [std::list] are [list].
    - Every member function runs under a [lock_guard]; the model is the
      sequential behaviour of one call.
    - A call whose C++ behaviour is undefined ([front()] of an empty list,
      overflow of a signed [int], a null [unique_ptr] dereferenced, index 0
      of an empty vector) yields [None]; every defined call yields [Some]. *)

From stdpp Require Import gmap strings.
From Stdlib Require Import ZArith.

Local Open Scope Z_scope.

(** ** Machine integers *)

(** Largest value of the C++ [int] (from [<climits>]). *)
Definition INT_MAX : Z := 2147483647.

(** Width of [size_t], the type of [container.size()]. *)
Definition SIZE_BITS : Z := 64.

(** Conversion of an [int] to [size_t], as the usual arithmetic conversions
    do when an [int] is compared with [container.size()]. *)
Definition to_size_t (z : Z) : Z := z mod 2 ^ SIZE_BITS.

(** [x++] on a signed [int]: undefined at [INT_MAX]. *)
Definition int_incr (z : Z) : option Z :=
  if decide (z < INT_MAX) then Some (z + 1) else None.

(** ** Recency policy *)

Module LRUEvictionPolicy.

(** [accessOrder] is the list of keys, least recent first.  [cacheMap]
    maps a key to the iterator of the node that holds this key; an
    iterator is only ever used to reach that node, so the map is kept as
    its key set and [accessOrder.erase(cacheMap[key])] is [erase key]. *)
Record t : Type := mk {
  accessOrder : list string;
  cacheMap : gset string
}.

Definition init : t := mk [] ∅.

(** Unlink the node holding [key]. *)
Fixpoint erase (key : string) (l : list string) : list string :=
  match l with
  | [] => []
  | x :: l' => if decide (x = key) then l' else x :: erase key l'
  end.

Definition access (key : string) (s : t) : t :=
  let order :=
    if decide (key ∈ cacheMap s) then erase key (accessOrder s)
    else accessOrder s in
  mk (order ++ [key]) ({[key]} ∪ cacheMap s).

(** [accessOrder.front()] of an empty list is undefined. *)
Definition evict (s : t) : option (string * t) :=
  match accessOrder s with
  | [] => None
  | leastRecent :: rest =>
      Some (leastRecent, mk rest (cacheMap s ∖ {[leastRecent]}))
  end.

(** The keys the policy tracks. *)
Definition tracked (s : t) : gset string := cacheMap s.

(** Representation invariant: one node per tracked key. *)
Definition wf (s : t) : Prop :=
  NoDup (accessOrder s) ∧ ∀ k, k ∈ cacheMap s ↔ k ∈ accessOrder s.

End LRUEvictionPolicy.

(** ** Frequency policy *)

Module LFUEvictionPolicy.

Record t : Type := mk {
  frequencyMap : gmap string Z;
  keyOrder : gmap string Z;
  currentTime : Z
}.

Definition init : t := mk ∅ ∅ 0.

(** [frequencyMap[key]++; keyOrder[key] = currentTime++;] where
    [operator[]] starts a missing key at 0. *)
Definition access (key : string) (s : t) : option t :=
  freq ← int_incr (default 0 (frequencyMap s !! key));
  time ← int_incr (currentTime s);
  Some (mk (<[key := freq]> (frequencyMap s))
           (<[key := currentTime s]> (keyOrder s))
           time).

(** State of the scanning loop of [evict]. *)
Record scan : Type := mkScan {
  minFreq : Z;
  minOrder : Z;
  lfuKey : string;
  orders : gmap string Z
}.

(** [m[key]] used as an rvalue: the stored value, a missing key being
    inserted with 0 first. *)
Definition index (key : string) (m : gmap string Z) : Z * gmap string Z :=
  match m !! key with
  | Some v => (v, m)
  | None => (0, <[key := 0]> m)
  end.

(** One iteration of the loop body on the entry [pair]. *)
Definition scan_step (st : scan) (pair : string * Z) : scan :=
  let '(order, ko) := index pair.1 (orders st) in
  if decide (pair.2 < minFreq st ∨ (pair.2 = minFreq st ∧ order < minOrder st))
  then mkScan pair.2 order pair.1 ko
  else mkScan (minFreq st) (minOrder st) (lfuKey st) ko.

(** [evict] when the range-for visits the entries of [frequencyMap] in
    the order [visit] (an [unordered_map] fixes no order). *)
Definition evict_in (visit : list (string * Z)) (s : t) : string * t :=
  let st := foldl scan_step (mkScan INT_MAX INT_MAX EmptyString (keyOrder s)) visit in
  (lfuKey st,
   mk (delete (lfuKey st) (frequencyMap s))
      (delete (lfuKey st) (orders st))
      (currentTime s)).

Definition evict (s : t) : string * t :=
  evict_in (map_to_list (frequencyMap s)) s.

Definition tracked (s : t) : gset string := dom (frequencyMap s).

(** Representation invariant of the states built by [access] and
    [evict]: both maps have the same keys, counts lie in [1, time],
    sequence numbers lie in [0, time) and are pairwise distinct. *)
Definition wf (s : t) : Prop :=
  dom (keyOrder s) = dom (frequencyMap s)
  ∧ 0 ≤ currentTime s ≤ INT_MAX
  ∧ (∀ k f, frequencyMap s !! k = Some f → 1 ≤ f ≤ currentTime s)
  ∧ (∀ k o, keyOrder s !! k = Some o → 0 ≤ o < currentTime s)
  ∧ (∀ k1 k2 o, keyOrder s !! k1 = Some o → keyOrder s !! k2 = Some o → k1 = k2).

End LFUEvictionPolicy.

(** ** The policy interface *)

(** An object behind [unique_ptr<EvictionPolicy>]: one of the two
    subclasses.  The virtual calls dispatch on the constructor. *)
Inductive EvictionPolicy : Type :=
  | LRU (s : LRUEvictionPolicy.t)
  | LFU (s : LFUEvictionPolicy.t).

Definition policy_access (key : string) (p : EvictionPolicy) : option EvictionPolicy :=
  match p with
  | LRU s => Some (LRU (LRUEvictionPolicy.access key s))
  | LFU s => LFU <$> LFUEvictionPolicy.access key s
  end.

(** The frequency policy is run in the visiting order [map_to_list]; on a
    well-formed state every other order gives the same result
    ([lfu_evict_in_perm] below). *)
Definition policy_evict (p : EvictionPolicy) : option (string * EvictionPolicy) :=
  match p with
  | LRU s => prod_map id LRU <$> LRUEvictionPolicy.evict s
  | LFU s => Some (prod_map id LFU (LFUEvictionPolicy.evict s))
  end.

Definition policy_tracked (p : EvictionPolicy) : gset string :=
  match p with
  | LRU s => LRUEvictionPolicy.tracked s
  | LFU s => LFUEvictionPolicy.tracked s
  end.

Definition policy_wf (p : EvictionPolicy) : Prop :=
  match p with
  | LRU s => LRUEvictionPolicy.wf s
  | LFU s => LFUEvictionPolicy.wf s
  end.

(** ** One cache level *)

Module CacheLevel.

(** [evictionPolicy] is a [unique_ptr]: [None] is the null pointer. *)
Record t : Type := mk {
  size : Z;
  data : gmap string string;
  evictionPolicy : option EvictionPolicy
}.

(** The constructor. *)
Definition new (size : Z) (evictionPolicy : option EvictionPolicy) : t :=
  mk size ∅ evictionPolicy.

(** A key that is absent gives the empty string and leaves the level
    untouched. *)
Definition get (key : string) (l : t) : option (string * t) :=
  match data l !! key with
  | Some value =>
      p ← evictionPolicy l;
      p' ← policy_access key p;
      Some (value, mk (size l) (data l) (Some p'))
  | None => Some (EmptyString, l)
  end.

(** [data.size() >= size] compares a [size_t] with an [int]. *)
Definition full (l : t) : Prop :=
  to_size_t (size l) ≤ Z.of_nat (base.size (data l)).

Definition put (key value : string) (l : t) : option t :=
  p ← evictionPolicy l;
  if decide (full l) then
    '(evicted, p1) ← policy_evict p;
    p2 ← policy_access key p1;
    Some (mk (size l) (<[key := value]> (delete evicted (data l))) (Some p2))
  else
    p2 ← policy_access key p;
    Some (mk (size l) (<[key := value]> (data l)) (Some p2)).

Definition contains (key : string) (l : t) : bool :=
  bool_decide (is_Some (data l !! key)).

Definition update (key value : string) (l : t) : t :=
  mk (size l) (<[key := value]> (data l)) (evictionPolicy l).

End CacheLevel.

(** ** The chain of levels *)

Module MultilevelCacheSystem.

(** [cacheLevels], index 0 first. *)
Abbreviation t := (list CacheLevel.t).

Definition init : t := [].

Definition make_policy (evictionPolicy : string) : option EvictionPolicy :=
  if decide (evictionPolicy = "LRU") then Some (LRU LRUEvictionPolicy.init)
  else if decide (evictionPolicy = "LFU") then Some (LFU LFUEvictionPolicy.init)
  else None.

Definition addCacheLevel (size : Z) (evictionPolicy : string) (c : t) : t :=
  c ++ [CacheLevel.new size (make_policy evictionPolicy)].

Definition removeCacheLevel (level : Z) (c : t) : t :=
  if decide (1 ≤ level ∧ to_size_t level ≤ Z.of_nat (length c))
  then delete (Z.to_nat (level - 1)) c
  else c.

(** The inner loop of [get]: [for (j = i; j > 0; --j)]. *)
Fixpoint promote (key value : string) (j : nat) (c : t) : t :=
  match j with
  | O => c
  | S j' => promote key value j' (alter (CacheLevel.update key value) j' c)
  end.

(** The outer loop of [get] from index [i], with [n] levels left
    ([i < cacheLevels.size()] holds for exactly [n] more values of [i]). *)
Fixpoint scan (key : string) (n : nat) (i : nat) (c : t) : option (string * t) :=
  match n with
  | O => Some (EmptyString, c)
  | S n' =>
      l ← c !! i;
      '(value, l') ← CacheLevel.get key l;
      let c' := <[i := l']> c in
      if decide (value ≠ EmptyString)
      then Some (value, promote key value i c')
      else scan key n' (S i) c'
  end.

Definition get (key : string) (c : t) : option (string * t) :=
  scan key (length c) 0%nat c.

(** [cacheLevels[0]] of an empty vector is undefined. *)
Definition put (key value : string) (c : t) : option t :=
  l ← c !! 0%nat;
  l' ← CacheLevel.put key value l;
  Some (<[0%nat := l']> c).

End MultilevelCacheSystem.

(** * Notions used by the properties *)

(** Index in [trace] of the last touch of [key], if any. *)
Fixpoint last_touch (key : string) (trace : list string) : option nat :=
  match trace with
  | [] => None
  | x :: rest =>
      match last_touch key rest with
      | Some i => Some (S i)
      | None => if decide (x = key) then Some O else None
      end
  end.

(** A run of [access] calls, first call first. *)
Definition lru_run (s0 : LRUEvictionPolicy.t) (keys : list string) : LRUEvictionPolicy.t :=
  foldl (λ s k, LRUEvictionPolicy.access k s) s0 keys.

(** A run of [access] calls on the frequency policy, first call first. *)
Definition lfu_run (s0 : LFUEvictionPolicy.t) (keys : list string) : option LFUEvictionPolicy.t :=
  foldl (λ r k, r ≫= LFUEvictionPolicy.access k) (Some s0) keys.

(** Room for [n] more [access] calls before the [int] counter of a
    frequency policy overflows; a recency policy has no counter. *)
Definition policy_headroom (n : Z) (p : EvictionPolicy) : Prop :=
  match p with
  | LRU _ => True
  | LFU s => LFUEvictionPolicy.currentTime s + n ≤ INT_MAX
  end.

(** The level has a policy, the policy is well formed and tracks exactly
    the keys of the mapping. *)
Definition level_inv (l : CacheLevel.t) : Prop :=
  ∃ p, CacheLevel.evictionPolicy l = Some p
       ∧ policy_wf p
       ∧ policy_tracked p = dom (CacheLevel.data l).

(** Room for [n] more [access] calls in the policy of the level. *)
Definition level_headroom (n : Z) (l : CacheLevel.t) : Prop :=
  ∀ p, CacheLevel.evictionPolicy l = Some p → policy_headroom n p.

(** One completed operation on a level; [update] is restricted to a key the
    mapping already holds. *)
Inductive level_step : CacheLevel.t → CacheLevel.t → Prop :=
  | step_get key l r l' :
      CacheLevel.get key l = Some (r, l') → level_step l l'
  | step_put key value l l' :
      CacheLevel.put key value l = Some l' → level_step l l'
  | step_update key value l :
      key ∈ dom (CacheLevel.data l) →
      level_step l (CacheLevel.update key value l).

(** [put] as the specification words it: the capacity test compares the
    number of keys with the capacity as integers. *)
Definition put_spec (key value : string) (l : CacheLevel.t) : option CacheLevel.t :=
  p ← CacheLevel.evictionPolicy l;
  '(d, p1) ← (if decide (CacheLevel.size l ≤ Z.of_nat (size (CacheLevel.data l)))
              then '(victim, p') ← policy_evict p;
                   Some (delete victim (CacheLevel.data l), p')
              else Some (CacheLevel.data l, p));
  p2 ← policy_access key p1;
  Some (CacheLevel.mk (CacheLevel.size l) (<[key := value]> d) (Some p2)).

(** The states the system reaches from the empty chain through its public
    operations, levels being added with a positive [int] capacity and one of
    the two policy names. *)
Inductive reachable : MultilevelCacheSystem.t → Prop :=
  | reach_init : reachable MultilevelCacheSystem.init
  | reach_add c capacity name :
      reachable c → 0 < capacity ≤ INT_MAX →
      name = "LRU"%string ∨ name = "LFU"%string →
      reachable (MultilevelCacheSystem.addCacheLevel capacity name c)
  | reach_remove c level :
      reachable c → reachable (MultilevelCacheSystem.removeCacheLevel level c)
  | reach_get c key r c' :
      reachable c → MultilevelCacheSystem.get key c = Some (r, c') → reachable c'
  | reach_put c key value c' :
      reachable c → MultilevelCacheSystem.put key value c = Some c' → reachable c'.

(** Every level satisfies the level invariant and has a positive capacity,
    and the mapping of every level but the first is empty. *)
Definition sys_inv (c : MultilevelCacheSystem.t) : Prop :=
  (∀ i l, c !! i = Some l → level_inv l ∧ 0 < CacheLevel.size l ≤ INT_MAX)
  ∧ (∀ i l, c !! S i = Some l → CacheLevel.data l = ∅).

(** The level stores no value for [key], or the empty string. *)
Definition no_value (key : string) (l : CacheLevel.t) : Prop :=
  CacheLevel.data l !! key = None ∨ CacheLevel.data l !! key = Some EmptyString.

(** ** Sample states *)

(** The chain built by [main]. *)
Definition demo_chain : MultilevelCacheSystem.t :=
  MultilevelCacheSystem.addCacheLevel 2 "LFU"
    (MultilevelCacheSystem.addCacheLevel 3 "LRU" MultilevelCacheSystem.init).

(** The state after [access] of a, b, c, a, c. *)
Definition lfu_sample : LFUEvictionPolicy.t :=
  default LFUEvictionPolicy.init
    (lfu_run LFUEvictionPolicy.init ["a"; "b"; "c"; "a"; "c"]%string).

(** A level of capacity 1 that received the key a through [update] only. *)
Definition untracked_level : CacheLevel.t :=
  CacheLevel.update "a" "1"
    (CacheLevel.new 1 (MultilevelCacheSystem.make_policy "LFU")).

(** A level of capacity 2 holding A and B, A the older one. *)
Definition full_level : CacheLevel.t :=
  default (CacheLevel.new 2 None)
    (CacheLevel.put "A" "1" (CacheLevel.new 2 (MultilevelCacheSystem.make_policy "LRU"))
       ≫= CacheLevel.put "B" "2").

(** A level that stores the empty string under k. *)
Definition empty_value_level : CacheLevel.t :=
  default (CacheLevel.new 2 None)
    (CacheLevel.put "k" EmptyString
       (CacheLevel.new 2 (MultilevelCacheSystem.make_policy "LRU"))).

(** A chain whose second level was filled from outside: level 0 has
    capacity 1 and holds x, level 1 holds k. *)
Definition seeded_chain : MultilevelCacheSystem.t :=
  [ default (CacheLevel.new 1 None)
      (CacheLevel.put "x" "0" (CacheLevel.new 1 (MultilevelCacheSystem.make_policy "LRU")));
    default (CacheLevel.new 2 None)
      (CacheLevel.put "k" "v" (CacheLevel.new 2 (MultilevelCacheSystem.make_policy "LFU"))) ].

(** [put] in a test scenario, where it is known to be defined. *)
Definition put_or_stay (key value : string) (c : MultilevelCacheSystem.t) :
    MultilevelCacheSystem.t :=
  default c (MultilevelCacheSystem.put key value c).

(** The chain of [main] after its three [put] calls. *)
Definition demo_state : MultilevelCacheSystem.t :=
  put_or_stay "C" "3" (put_or_stay "B" "2" (put_or_stay "A" "1" demo_chain)).

(** The recency order of a level governed by the recency policy. *)
Definition recency_order (l : CacheLevel.t) : list string :=
  match CacheLevel.evictionPolicy l with
  | Some (LRU s) => LRUEvictionPolicy.accessOrder s
  | _ => []
  end.

(** [main] up to its last [get]: the two results it prints, the recency
    order of level 0 after the first [get], and the final chain. *)
Definition demo_main :
    option (string * string * option (list string) * MultilevelCacheSystem.t) :=
  '(r1, c) ← MultilevelCacheSystem.get "A" demo_state;
  let order := recency_order <$> c !! 0%nat in
  c ← MultilevelCacheSystem.put "D" "4" c;
  '(r2, c) ← MultilevelCacheSystem.get "C" c;
  Some (r1, r2, order, c).

(** ** Notions used by the further properties *)

(** One defined call on a policy object: [access] of some key, or [evict]. *)
Inductive policy_step : EvictionPolicy → EvictionPolicy → Prop :=
  | pstep_access key p p' :
      policy_access key p = Some p' → policy_step p p'
  | pstep_evict p victim p' :
      policy_evict p = Some (victim, p') → policy_step p p'.

(** [n] calls of [evict] on a recency policy, the victims in the order they
    are returned. *)
Fixpoint lru_drain (n : nat) (s : LRUEvictionPolicy.t) :
    option (list string * LRUEvictionPolicy.t) :=
  match n with
  | O => Some ([], s)
  | S n' =>
      '(victim, s1) ← LRUEvictionPolicy.evict s;
      '(victims, s2) ← lru_drain n' s1;
      Some (victim :: victims, s2)
  end.

(** The level of capacity 3 of [main] after its three [put] calls. *)
Definition demo_level : CacheLevel.t :=
  default (CacheLevel.new 3 None) (demo_state !! 0%nat).

(** A frequency level of capacity 2 in which a was read once after the
    [put] of a and b. *)
Definition lfu_level : CacheLevel.t :=
  default (CacheLevel.new 2 None)
    (l ← CacheLevel.put "a" "1" (CacheLevel.new 2 (MultilevelCacheSystem.make_policy "LFU"));
     l ← CacheLevel.put "b" "2" l;
     snd <$> CacheLevel.get "a" l).

(** * Properties *)

(** The run of [main]: [get] of A gives 1 and moves A behind B and C; the
    [put] of D then evicts B, which is gone from both levels; [get] of C
    gives 3 and [get] of B the empty string. *)
Example demo_main_run :
  ∃ c l0 l1,
    demo_main = Some ("1"%string, "3"%string, Some ["B"; "C"; "A"]%string, c)
    ∧ c = [l0; l1]
    ∧ CacheLevel.data l0
      = <["C"%string := "3"%string]>
          (<["A"%string := "1"%string]> {["D"%string := "4"%string]})
    ∧ CacheLevel.data l1 = ∅
    ∧ fst <$> MultilevelCacheSystem.get "B" c = Some EmptyString.
Proof.
  do 3 eexists. split; [vm_compute; reflexivity|].
  split; [reflexivity|]. repeat split; vm_compute; reflexivity.
Qed.

(** Removing level 5 of a chain of two levels changes nothing. *)
Example removeCacheLevel_out_of_range :
  MultilevelCacheSystem.removeCacheLevel 5 demo_chain = demo_chain.
Proof. reflexivity. Qed.

(** ** Recency policy: history of touches *)

Section lru_facts.
Import LRUEvictionPolicy.

Lemma last_touch_None key trace : last_touch key trace = None ↔ key ∉ trace.
Proof.
  induction trace as [|x rest IH]; simpl.
  - split; [intros _; apply not_elem_of_nil | done].
  - rewrite not_elem_of_cons. destruct (last_touch key rest) as [i|].
    + split; [done|]. intros [_ Hn]. apply IH in Hn. done.
    + destruct (decide (x = key)) as [->|Hne].
      * split; [done|]. intros [Hn _]. done.
      * split; [|done]. intros _. split; [congruence|]. by apply IH.
Qed.

Lemma last_touch_Some key trace : key ∈ trace → is_Some (last_touch key trace).
Proof.
  intros Hin. destruct (last_touch key trace) eqn:E; [eauto|].
  apply last_touch_None in E. done.
Qed.

Lemma lru_erase_notin key l : key ∉ l → erase key l = l.
Proof.
  induction l as [|x l IH]; [done|]. rewrite not_elem_of_cons. intros [Hne Hn].
  simpl. destruct (decide (x = key)); [congruence|]. by rewrite IH.
Qed.

Lemma lru_erase_filter key l :
  NoDup l → erase key l = filter (λ x, x ≠ key) l.
Proof.
  induction 1 as [|x l Hx Hnd IH]; [done|]. simpl.
  destruct (decide (x = key)) as [->|Hne].
  - rewrite filter_cons_False by (intros ?; done).
    rewrite <- IH. by rewrite lru_erase_notin.
  - rewrite filter_cons_True by done. by rewrite IH.
Qed.

(** The order after [access] is the old order without [key], then [key]. *)
Lemma lru_access_order key s :
  wf s → accessOrder (access key s) = filter (λ x, x ≠ key) (accessOrder s) ++ [key].
Proof.
  intros [Hnd Hset]. unfold access. simpl. f_equal.
  destruct (decide (key ∈ cacheMap s)) as [Hin|Hnin].
  - by apply lru_erase_filter.
  - rewrite <- lru_erase_filter by done. rewrite lru_erase_notin; [done|].
    intros Hk. apply Hnin, Hset, Hk.
Qed.

Lemma lru_access_wf key s : wf s → wf (access key s).
Proof.
  intros Hwf. pose proof (lru_access_order key s Hwf) as Ho.
  destruct Hwf as [Hnd Hset]. split.
  - rewrite Ho. apply NoDup_app. split; [by apply NoDup_filter|]. split.
    + intros x [Hx _]%list_elem_of_filter ->%list_elem_of_singleton. done.
    + apply NoDup_singleton.
  - intros k. rewrite Ho. simpl. rewrite elem_of_union, elem_of_singleton, Hset.
    rewrite elem_of_app, list_elem_of_filter, list_elem_of_singleton.
    destruct (decide (k = key)); tauto.
Qed.

Lemma lru_evict_wf s k s' : wf s → evict s = Some (k, s') → wf s'.
Proof.
  intros [Hnd Hset]. unfold evict. destruct (accessOrder s) as [|x rest] eqn:E; [done|].
  intros [= <- <-]. apply NoDup_cons in Hnd as [Hx Hnd]. split; [done|].
  intros k. simpl. rewrite elem_of_difference, elem_of_singleton, Hset, elem_of_cons.
  split; [intros [[->|Hk] Hne]; done|]. intros Hk. split; [by right|]. intros ->. done.
Qed.

Lemma lru_init_wf : wf init.
Proof.
  split; [apply NoDup_nil_2|]. intros k. simpl.
  split; [intros []%not_elem_of_empty | intros []%not_elem_of_nil].
Qed.

Lemma lru_run_wf s0 keys : wf s0 → wf (lru_run s0 keys).
Proof.
  revert s0. induction keys as [|k keys IH]; intros s0 Hwf; [done|].
  apply IH. by apply lru_access_wf.
Qed.

(** [remove_dups] keeps the last occurrence of every key. *)
Lemma remove_dups_cons_in (x : string) l :
  x ∈ l → remove_dups (x :: l) = remove_dups l.
Proof. intros Hin. simpl. by destruct (decide_rel elem_of x l). Qed.

Lemma remove_dups_cons_notin (x : string) l :
  x ∉ l → remove_dups (x :: l) = x :: remove_dups l.
Proof. intros Hin. simpl. by destruct (decide_rel elem_of x l). Qed.

Lemma remove_dups_app_l (l l' : list string) :
  remove_dups (remove_dups l ++ l') = remove_dups (l ++ l').
Proof.
  induction l as [|x l IH]; [done|].
  destruct (decide (x ∈ l)) as [Hin|Hnin].
  - rewrite (remove_dups_cons_in x l Hin), IH. rewrite <- app_comm_cons.
    rewrite remove_dups_cons_in; [done|]. apply elem_of_app. by left.
  - rewrite (remove_dups_cons_notin x l Hnin). rewrite <- !app_comm_cons.
    destruct (decide (x ∈ l')) as [Hin'|Hnin'].
    + rewrite !remove_dups_cons_in by (apply elem_of_app; by right). done.
    + rewrite !remove_dups_cons_notin; [by rewrite IH| |].
      * rewrite elem_of_app. intros [?|?]; done.
      * rewrite elem_of_app, elem_of_remove_dups. intros [?|?]; done.
Qed.

Lemma remove_dups_NoDup (l : list string) : NoDup l → remove_dups l = l.
Proof.
  induction 1 as [|x l Hx Hnd IH]; [done|].
  rewrite remove_dups_cons_notin by done. by rewrite IH.
Qed.

Lemma remove_dups_snoc (l : list string) key :
  NoDup l → remove_dups (l ++ [key]) = filter (λ x, x ≠ key) l ++ [key].
Proof.
  induction 1 as [|x l Hx Hnd IH]; [done|]. rewrite <- app_comm_cons.
  destruct (decide (x = key)) as [->|Hne].
  - rewrite remove_dups_cons_in
      by (apply elem_of_app; right; by apply list_elem_of_singleton).
    rewrite filter_cons_False by (intros ?; done). done.
  - rewrite remove_dups_cons_notin.
    + rewrite filter_cons_True by done. simpl. by rewrite IH.
    + rewrite elem_of_app, list_elem_of_singleton. intros [?|?]; done.
Qed.

(** The order reached by a run is the history with only the last touch of
    every key kept. *)
Lemma lru_run_order s0 keys :
  wf s0 → accessOrder (lru_run s0 keys) = remove_dups (accessOrder s0 ++ keys).
Proof.
  revert s0. induction keys as [|k keys IH]; intros s0 Hwf.
  - simpl. rewrite app_nil_r. symmetry. apply remove_dups_NoDup, Hwf.
  - simpl. rewrite IH by (by apply lru_access_wf).
    rewrite lru_access_order by done.
    rewrite <- (remove_dups_snoc _ _ (proj1 Hwf)).
    rewrite remove_dups_app_l. by rewrite <- app_assoc.
Qed.

(** The head of the de-duplicated history was last touched before every
    other key of it. *)
Lemma remove_dups_head_oldest (trace : list string) k rest k' :
  remove_dups trace = k :: rest → k' ∈ rest →
  ∃ i i', last_touch k trace = Some i ∧ last_touch k' trace = Some i' ∧ (i < i')%nat.
Proof.
  revert k rest. induction trace as [|x t IH]; intros k rest; [done|].
  destruct (decide (x ∈ t)) as [Hin|Hnin].
  - rewrite remove_dups_cons_in by done. intros E Hk'.
    destruct (IH _ _ E Hk') as (i & i' & Hi & Hi' & Hlt).
    exists (S i), (S i'). simpl. rewrite Hi, Hi'. repeat split; lia.
  - rewrite remove_dups_cons_notin by done. intros E Hk'.
    injection E as -> Hrest. subst rest. rewrite elem_of_remove_dups in Hk'.
    apply last_touch_None in Hnin. simpl. rewrite Hnin. rewrite decide_True by done.
    destruct (last_touch_Some _ _ Hk') as [i' Hi'].
    exists O, (S i'). rewrite Hi'. repeat split; lia.
Qed.

End lru_facts.

(** C1.  Recency policy.  From any well-formed state [s0], after any
    sequence [keys] of [access] calls, the policy tracks exactly the keys of
    the history [accessOrder s0 ++ keys]; when some key is tracked, [evict]
    returns, and removes from the tracked keys, the key whose last touch in
    that history is older than the last touch of every other tracked key;
    and [access k] on a tracked key [k] takes [k] out of its position,
    keeps the other keys in their order and puts [k] at the most-recent
    end. *)
Theorem lru_evict_least_recently_touched
    (s0 : LRUEvictionPolicy.t) (keys : list string) :
  LRUEvictionPolicy.wf s0 →
  (∀ k, k ∈ LRUEvictionPolicy.tracked (lru_run s0 keys)
        ↔ k ∈ LRUEvictionPolicy.accessOrder s0 ++ keys)
  ∧ (LRUEvictionPolicy.tracked (lru_run s0 keys) ≠ ∅ →
     ∃ k s',
       LRUEvictionPolicy.evict (lru_run s0 keys) = Some (k, s')
       ∧ k ∈ LRUEvictionPolicy.tracked (lru_run s0 keys)
       ∧ LRUEvictionPolicy.tracked s'
         = LRUEvictionPolicy.tracked (lru_run s0 keys) ∖ {[k]}
       ∧ LRUEvictionPolicy.accessOrder (lru_run s0 keys)
         = k :: LRUEvictionPolicy.accessOrder s'
       ∧ ∀ k', k' ∈ LRUEvictionPolicy.tracked (lru_run s0 keys) → k' ≠ k →
           ∃ i i',
             last_touch k (LRUEvictionPolicy.accessOrder s0 ++ keys) = Some i
             ∧ last_touch k' (LRUEvictionPolicy.accessOrder s0 ++ keys) = Some i'
             ∧ (i < i')%nat)
  ∧ (∀ k, k ∈ LRUEvictionPolicy.tracked (lru_run s0 keys) →
       LRUEvictionPolicy.accessOrder (LRUEvictionPolicy.access k (lru_run s0 keys))
       = filter (λ x, x ≠ k) (LRUEvictionPolicy.accessOrder (lru_run s0 keys)) ++ [k]
       ∧ last (LRUEvictionPolicy.accessOrder
                 (LRUEvictionPolicy.access k (lru_run s0 keys))) = Some k
       ∧ LRUEvictionPolicy.tracked (LRUEvictionPolicy.access k (lru_run s0 keys))
         = LRUEvictionPolicy.tracked (lru_run s0 keys)).
Proof.
  intros Hwf0.
  pose proof (lru_run_wf s0 keys Hwf0) as Hwf.
  pose proof (lru_run_order s0 keys Hwf0) as Hord.
  set (s := lru_run s0 keys) in *.
  assert (Htr : ∀ k, k ∈ LRUEvictionPolicy.tracked s
                     ↔ k ∈ LRUEvictionPolicy.accessOrder s0 ++ keys).
  { intros k. unfold LRUEvictionPolicy.tracked.
    rewrite (proj2 Hwf k), Hord. apply elem_of_remove_dups. }
  split; [exact Htr|]. split.
  - intros Hne. unfold LRUEvictionPolicy.evict.
    destruct (LRUEvictionPolicy.accessOrder s) as [|k rest] eqn:E.
    + exfalso. apply Hne. apply set_eq. intros k.
      unfold LRUEvictionPolicy.tracked. rewrite (proj2 Hwf k), E.
      split; [intros []%not_elem_of_nil | intros []%not_elem_of_empty].
    + eexists k, _. split; [reflexivity|]. simpl.
      assert (Hk : k ∈ LRUEvictionPolicy.tracked s).
      { unfold LRUEvictionPolicy.tracked. rewrite (proj2 Hwf k), E. by left. }
      repeat split; [done|].
      intros k' Hk' Hneq.
      apply (remove_dups_head_oldest _ k rest k'); [by rewrite <- Hord|].
      unfold LRUEvictionPolicy.tracked in Hk'.
      rewrite (proj2 Hwf k'), E in Hk'.
      apply elem_of_cons in Hk' as [?|?]; [congruence|done].
  - intros k Hk. rewrite (lru_access_order k s Hwf).
    split; [done|]. split; [apply last_snoc|].
    unfold LRUEvictionPolicy.tracked in *. simpl.
    apply set_eq. intros x. rewrite elem_of_union, elem_of_singleton.
    split; [intros [->|?]; done | by right].
Qed.

(** After x, y, x and then z, y the oldest last touch is that of x. *)
Lemma lru_evict_least_recently_touched_witness :
  LRUEvictionPolicy.wf (lru_run LRUEvictionPolicy.init ["x"; "y"; "x"]%string)
  ∧ ∃ s', LRUEvictionPolicy.evict
             (lru_run (lru_run LRUEvictionPolicy.init ["x"; "y"; "x"]%string)
                      ["z"; "y"]%string)
          = Some ("x"%string, s').
Proof.
  split; [apply lru_run_wf, lru_init_wf|].
  destruct (lru_evict_least_recently_touched
              (lru_run LRUEvictionPolicy.init ["x"; "y"; "x"]%string)
              ["z"; "y"]%string (lru_run_wf _ _ lru_init_wf))
    as (_ & Hev & _).
  destruct Hev as (k & s' & Hev & _).
  - vm_compute. discriminate.
  - exists s'. rewrite Hev. vm_compute in Hev. injection Hev as <- _. reflexivity.
Defined.

(** ** Frequency policy *)

Section lfu_facts.
Import LFUEvictionPolicy.

Lemma lfu_index_present key (m : gmap string Z) v :
  m !! key = Some v → index key m = (v, m).
Proof. intros H. unfold index. by rewrite H. Qed.

(** What the scanning loop has computed after the entries [visit], when
    every visited key has a sequence number in [ko]: the pair
    [(minFreq, minOrder)] is lexicographically below the starting pair and
    below the pair of every visited entry, and it is either the starting
    one or the pair of the visited entry [lfuKey]. *)
Lemma lfu_scan_foldl (ko : gmap string Z) (visit : list (string * Z)) (st0 : scan) :
  orders st0 = ko →
  (∀ k f, (k, f) ∈ visit → is_Some (ko !! k)) →
  orders (foldl scan_step st0 visit) = ko
  ∧ (minFreq (foldl scan_step st0 visit) < minFreq st0
     ∨ (minFreq (foldl scan_step st0 visit) = minFreq st0
        ∧ minOrder (foldl scan_step st0 visit) ≤ minOrder st0))
  ∧ (∀ k' f' o', (k', f') ∈ visit → ko !! k' = Some o' →
       minFreq (foldl scan_step st0 visit) < f'
       ∨ (minFreq (foldl scan_step st0 visit) = f'
          ∧ minOrder (foldl scan_step st0 visit) ≤ o'))
  ∧ ((minFreq (foldl scan_step st0 visit) = minFreq st0
      ∧ minOrder (foldl scan_step st0 visit) = minOrder st0
      ∧ lfuKey (foldl scan_step st0 visit) = lfuKey st0)
     ∨ ((lfuKey (foldl scan_step st0 visit), minFreq (foldl scan_step st0 visit)) ∈ visit
        ∧ ko !! lfuKey (foldl scan_step st0 visit)
          = Some (minOrder (foldl scan_step st0 visit)))).
Proof.
  revert st0. induction visit as [|[k f] rest IH]; intros st0 Hko Hkeys.
  - simpl. split; [done|]. split; [lia|]. split; [|by left].
    intros k' f' o' []%not_elem_of_nil.
  - destruct (Hkeys k f) as [o Ho]; [by left|].
    assert (Hrest : ∀ k f, (k, f) ∈ rest → is_Some (ko !! k)).
    { intros k0 f0 Hin. apply (Hkeys k0 f0). by right. }
    simpl foldl.
    assert (Hstep : orders (scan_step st0 (k, f)) = ko
              ∧ ((f < minFreq st0 ∨ (f = minFreq st0 ∧ o < minOrder st0))
                 ∧ minFreq (scan_step st0 (k, f)) = f
                 ∧ minOrder (scan_step st0 (k, f)) = o
                 ∧ lfuKey (scan_step st0 (k, f)) = k
                 ∨ ¬ (f < minFreq st0 ∨ (f = minFreq st0 ∧ o < minOrder st0))
                 ∧ minFreq (scan_step st0 (k, f)) = minFreq st0
                 ∧ minOrder (scan_step st0 (k, f)) = minOrder st0
                 ∧ lfuKey (scan_step st0 (k, f)) = lfuKey st0)).
    { unfold scan_step. simpl. rewrite Hko, (lfu_index_present _ _ _ Ho).
      destruct (decide _) as [Hb|Hb]; simpl; (split; [done|]); [left|right]; done. }
    destruct Hstep as [Hko1 Hcase].
    destruct (IH (scan_step st0 (k, f)) Hko1 Hrest) as (Hr1 & Hr2 & Hr3 & Hr4).
    set (st := foldl scan_step (scan_step st0 (k, f)) rest) in *.
    split; [done|]. split; [|split].
    + destruct Hcase as [(Hb & E1 & E2 & E3)|(Hb & E1 & E2 & E3)]; lia.
    + intros k' f' o' Hin Ho'.
      apply elem_of_cons in Hin as [Heq|Hin]; [|by apply (Hr3 k' f' o')].
      injection Heq as -> ->. rewrite Ho in Ho'. injection Ho' as <-.
      destruct Hcase as [(Hb & E1 & E2 & E3)|(Hb & E1 & E2 & E3)]; lia.
    + destruct Hr4 as [(F1 & F2 & F3)|[Hin Hlook]].
      * destruct Hcase as [(Hb & E1 & E2 & E3)|(Hb & E1 & E2 & E3)].
        -- right. rewrite F1, F2, F3, E1, E2, E3. split; [by left|done].
        -- left. rewrite F1, F2, F3. done.
      * right. split; [by right|done].
Qed.

Lemma lfu_visit_keys s (visit : list (string * Z)) :
  wf s → visit ≡ₚ map_to_list (frequencyMap s) →
  ∀ k f, (k, f) ∈ visit → is_Some (keyOrder s !! k).
Proof.
  intros (Hdom & _) Hperm k f Hin. rewrite Hperm in Hin.
  apply elem_of_map_to_list in Hin. apply elem_of_dom. rewrite Hdom.
  apply elem_of_dom. eauto.
Qed.

(** The victim of a non-empty well-formed state, whatever the visiting
    order. *)
Lemma lfu_evict_in_min s (visit : list (string * Z)) :
  wf s → visit ≡ₚ map_to_list (frequencyMap s) → frequencyMap s ≠ ∅ →
  ∃ f o,
    frequencyMap s !! (evict_in visit s).1 = Some f
    ∧ keyOrder s !! (evict_in visit s).1 = Some o
    ∧ ∀ k' f' o', frequencyMap s !! k' = Some f' → keyOrder s !! k' = Some o' →
        f < f' ∨ (f = f' ∧ o ≤ o').
Proof.
  intros Hwf Hperm Hne.
  pose proof (lfu_visit_keys s visit Hwf Hperm) as Hkeys.
  destruct (lfu_scan_foldl (keyOrder s) visit
              (mkScan INT_MAX INT_MAX EmptyString (keyOrder s)) eq_refl Hkeys)
    as (Hko & _ & Hmin & Hsel).
  unfold evict_in. simpl.
  set (st := foldl scan_step _ visit) in *.
  destruct Hwf as (Hdom & Htime & Hfreq & Hord & Hinj).
  destruct Hsel as [(F1 & F2 & _)|[Hin Hlook]].
  - exfalso. simpl in F1, F2.
    apply map_choose in Hne as (k1 & f1 & Hk1).
    assert (Hin1 : (k1, f1) ∈ visit).
    { rewrite Hperm. by apply elem_of_map_to_list. }
    destruct (Hkeys k1 f1 Hin1) as [o1 Ho1].
    specialize (Hmin k1 f1 o1 Hin1 Ho1).
    specialize (Hfreq k1 f1 Hk1). specialize (Hord k1 o1 Ho1). lia.
  - exists (minFreq st), (minOrder st). split; [|split; [done|]].
    + rewrite Hperm in Hin. by apply elem_of_map_to_list in Hin.
    + intros k' f' o' Hk' Ho'. apply (Hmin k' f' o'); [|done].
      rewrite Hperm. by apply elem_of_map_to_list.
Qed.

Lemma lfu_evict_in_state s (visit : list (string * Z)) :
  wf s → visit ≡ₚ map_to_list (frequencyMap s) →
  (evict_in visit s).2
  = mk (delete (evict_in visit s).1 (frequencyMap s))
       (delete (evict_in visit s).1 (keyOrder s))
       (currentTime s).
Proof.
  intros Hwf Hperm.
  pose proof (lfu_visit_keys s visit Hwf Hperm) as Hkeys.
  destruct (lfu_scan_foldl (keyOrder s) visit
              (mkScan INT_MAX INT_MAX EmptyString (keyOrder s)) eq_refl Hkeys)
    as (Hko & _).
  unfold evict_in. simpl. by rewrite Hko.
Qed.

(** Sequence numbers are pairwise distinct, so the minimum is strict. *)
Lemma lfu_evict_in_strict s (visit : list (string * Z)) f o :
  wf s → visit ≡ₚ map_to_list (frequencyMap s) → frequencyMap s ≠ ∅ →
  frequencyMap s !! (evict_in visit s).1 = Some f →
  keyOrder s !! (evict_in visit s).1 = Some o →
  ∀ k' f' o', k' ≠ (evict_in visit s).1 →
    frequencyMap s !! k' = Some f' → keyOrder s !! k' = Some o' →
    f < f' ∨ (f = f' ∧ o < o').
Proof.
  intros Hwf Hperm Hne Hf Ho k' f' o' Hk' Hf' Ho'.
  destruct (lfu_evict_in_min s visit Hwf Hperm Hne) as (f0 & o0 & Hf0 & Ho0 & Hmin).
  rewrite Hf in Hf0. rewrite Ho in Ho0. injection Hf0 as <-. injection Ho0 as <-.
  destruct (Hmin k' f' o' Hf' Ho') as [?|[? Hle]]; [by left|].
  destruct (decide (o = o')) as [->|?]; [|right; lia].
  destruct Hwf as (_ & _ & _ & _ & Hinj).
  exfalso. apply Hk'. by apply (Hinj _ _ o').
Qed.

(** The visiting order does not matter on a well-formed state. *)
Lemma lfu_evict_in_perm s (visit : list (string * Z)) :
  wf s → visit ≡ₚ map_to_list (frequencyMap s) → evict_in visit s = evict s.
Proof.
  intros Hwf Hperm. unfold evict.
  assert (Hkey : (evict_in visit s).1 = (evict_in (map_to_list (frequencyMap s)) s).1).
  { destruct (decide (frequencyMap s = ∅)) as [He|Hne].
    - rewrite He, map_to_list_empty in Hperm |- *.
      apply Permutation_nil_r in Hperm. by rewrite Hperm.
    - destruct (lfu_evict_in_min s visit Hwf Hperm Hne) as (f1 & o1 & Hf1 & Ho1 & _).
      destruct (lfu_evict_in_min s _ Hwf (reflexivity _) Hne) as (f2 & o2 & Hf2 & Ho2 & _).
      destruct (decide ((evict_in visit s).1 = (evict_in (map_to_list (frequencyMap s)) s).1))
        as [?|Hneq]; [done|].
      pose proof (lfu_evict_in_strict s visit f1 o1 Hwf Hperm Hne Hf1 Ho1 _ f2 o2
                    (not_eq_sym Hneq) Hf2 Ho2).
      pose proof (lfu_evict_in_strict s _ f2 o2 Hwf (reflexivity _) Hne Hf2 Ho2 _ f1 o1
                    Hneq Hf1 Ho1).
      lia. }
  rewrite (surjective_pairing (evict_in visit s)).
  rewrite (surjective_pairing (evict_in (map_to_list _) s)).
  rewrite (lfu_evict_in_state s visit Hwf Hperm).
  rewrite (lfu_evict_in_state s _ Hwf (reflexivity _)).
  by rewrite Hkey.
Qed.

Lemma lfu_delete_wf s k :
  wf s → wf (mk (delete k (frequencyMap s)) (delete k (keyOrder s)) (currentTime s)).
Proof.
  intros (Hdom & Htime & Hfreq & Hord & Hinj). unfold wf. simpl.
  split; [by rewrite !dom_delete_L, Hdom|]. split; [done|]. split; [|split].
  - intros k0 f [_ H]%lookup_delete_Some. by apply (Hfreq k0).
  - intros k0 o [_ H]%lookup_delete_Some. by apply (Hord k0).
  - intros k1 k2 o [_ H1]%lookup_delete_Some [_ H2]%lookup_delete_Some.
    by apply (Hinj k1 k2 o).
Qed.

Lemma lfu_evict_wf s : wf s → wf (evict s).2.
Proof.
  intros Hwf. unfold evict.
  rewrite (lfu_evict_in_state s _ Hwf (reflexivity _)). by apply lfu_delete_wf.
Qed.

Lemma lfu_evict_tracked s :
  wf s →
  tracked (evict s).2 = tracked s ∖ {[(evict s).1]}
  ∧ (tracked s ≠ ∅ → (evict s).1 ∈ tracked s).
Proof.
  intros Hwf. unfold evict. split.
  - rewrite (lfu_evict_in_state s _ Hwf (reflexivity _)). unfold tracked. simpl.
    apply dom_delete_L.
  - intros Hne.
    destruct (lfu_evict_in_min s _ Hwf (reflexivity _)) as (f & o & Hf & _).
    + intros He. apply Hne. unfold tracked. rewrite He. apply dom_empty_L.
    + unfold tracked. apply elem_of_dom. eauto.
Qed.

Lemma lfu_init_wf : wf init.
Proof.
  unfold wf, init, INT_MAX. simpl. split; [done|]. split; [lia|].
  split; [|split]; intros *; rewrite lookup_empty; done.
Qed.

Lemma lfu_count_bound s key :
  wf s → 0 ≤ default 0 (frequencyMap s !! key) ≤ currentTime s.
Proof.
  intros (_ & Htime & Hfreq & _).
  destruct (frequencyMap s !! key) as [f|] eqn:E; simpl; [|lia].
  specialize (Hfreq key f E). lia.
Qed.

(** [access] is defined as long as the global counter can be stepped. *)
Lemma lfu_access_defined s key :
  wf s → currentTime s < INT_MAX →
  access key s
  = Some (mk (<[key := default 0 (frequencyMap s !! key) + 1]> (frequencyMap s))
             (<[key := currentTime s]> (keyOrder s))
             (currentTime s + 1)).
Proof.
  intros Hwf Hlt. pose proof (lfu_count_bound s key Hwf) as Hb.
  unfold access, int_incr.
  rewrite decide_True by lia. simpl. rewrite decide_True by lia. done.
Qed.

(** A defined [access] has stepped the counter. *)
Lemma lfu_access_time s key s' :
  access key s = Some s' →
  currentTime s < INT_MAX ∧ currentTime s' = currentTime s + 1.
Proof.
  unfold access, int_incr.
  destruct (decide (default 0 (frequencyMap s !! key) < INT_MAX)); [|done]. simpl.
  destruct (decide (currentTime s < INT_MAX)); [|done]. simpl.
  intros [= <-]. done.
Qed.

Lemma lfu_access_wf s key s' : wf s → access key s = Some s' → wf s'.
Proof.
  intros Hwf Hacc. pose proof (lfu_count_bound s key Hwf) as Hb.
  destruct (lfu_access_time s key s' Hacc) as [Hlt _].
  rewrite (lfu_access_defined s key Hwf Hlt) in Hacc. injection Hacc as <-.
  destruct Hwf as (Hdom & Htime & Hfreq & Hord & Hinj). unfold wf. simpl.
  split; [by rewrite !dom_insert_L, Hdom|]. split; [lia|]. split; [|split].
  - intros k f. rewrite lookup_insert. case_decide.
    + intros [= <-]. lia.
    + intros H'. specialize (Hfreq k f H'). lia.
  - intros k o. rewrite lookup_insert. case_decide.
    + intros [= <-]. lia.
    + intros H'. specialize (Hord k o H'). lia.
  - intros k1 k2 o. rewrite !lookup_insert. repeat case_decide; subst.
    + done.
    + intros [= <-] H'. specialize (Hord k2 _ H'). lia.
    + intros H' [= <-]. specialize (Hord k1 _ H'). lia.
    + apply Hinj.
Qed.

End lfu_facts.

Lemma lfu_run_wf s0 keys s :
  LFUEvictionPolicy.wf s0 → lfu_run s0 keys = Some s → LFUEvictionPolicy.wf s.
Proof.
  unfold lfu_run. revert s0. induction keys as [|k keys IH]; intros s0 Hwf.
  - simpl. by intros [= <-].
  - simpl. destruct (LFUEvictionPolicy.access k s0) as [s1|] eqn:E.
    + apply IH. by apply (lfu_access_wf s0 k).
    + intros H. exfalso. clear -H. induction keys as [|k' keys IH']; [done|].
      simpl in H. by apply IH'.
Qed.

(** C2.  Frequency policy, on a well-formed state [s].  While the global
    counter can still be stepped, [access key] adds one to the count of
    [key] (a key not yet counted gets 1), records the current value of the
    global counter as the sequence number of [key], steps the counter, and
    leaves every other key alone.  When some key is tracked, [evict], in
    whatever order it visits the entries, returns a tracked key whose count
    is smallest and, among the keys of that count, whose sequence number is
    smallest, and erases it from both maps. *)
Theorem lfu_access_counts_evict_least_frequent (s : LFUEvictionPolicy.t) :
  LFUEvictionPolicy.wf s →
  (∀ key, LFUEvictionPolicy.currentTime s < INT_MAX →
     ∃ s', LFUEvictionPolicy.access key s = Some s'
       ∧ LFUEvictionPolicy.frequencyMap s' !! key
         = Some (default 0 (LFUEvictionPolicy.frequencyMap s !! key) + 1)
       ∧ (LFUEvictionPolicy.frequencyMap s !! key = None →
          LFUEvictionPolicy.frequencyMap s' !! key = Some 1)
       ∧ LFUEvictionPolicy.keyOrder s' !! key = Some (LFUEvictionPolicy.currentTime s)
       ∧ LFUEvictionPolicy.currentTime s' = LFUEvictionPolicy.currentTime s + 1
       ∧ ∀ k', k' ≠ key →
           LFUEvictionPolicy.frequencyMap s' !! k' = LFUEvictionPolicy.frequencyMap s !! k'
           ∧ LFUEvictionPolicy.keyOrder s' !! k' = LFUEvictionPolicy.keyOrder s !! k')
  ∧ (LFUEvictionPolicy.tracked s ≠ ∅ →
     ∀ visit, visit ≡ₚ map_to_list (LFUEvictionPolicy.frequencyMap s) →
     ∃ f o,
       LFUEvictionPolicy.frequencyMap s !! (LFUEvictionPolicy.evict_in visit s).1 = Some f
       ∧ LFUEvictionPolicy.keyOrder s !! (LFUEvictionPolicy.evict_in visit s).1 = Some o
       ∧ (∀ k' f' o', k' ≠ (LFUEvictionPolicy.evict_in visit s).1 →
            LFUEvictionPolicy.frequencyMap s !! k' = Some f' →
            LFUEvictionPolicy.keyOrder s !! k' = Some o' →
            f < f' ∨ (f = f' ∧ o < o'))
       ∧ LFUEvictionPolicy.frequencyMap (LFUEvictionPolicy.evict_in visit s).2
         = delete (LFUEvictionPolicy.evict_in visit s).1 (LFUEvictionPolicy.frequencyMap s)
       ∧ LFUEvictionPolicy.keyOrder (LFUEvictionPolicy.evict_in visit s).2
         = delete (LFUEvictionPolicy.evict_in visit s).1 (LFUEvictionPolicy.keyOrder s)
       ∧ LFUEvictionPolicy.currentTime (LFUEvictionPolicy.evict_in visit s).2
         = LFUEvictionPolicy.currentTime s).
Proof.
  intros Hwf. split.
  - intros key Hlt. eexists. split; [by apply lfu_access_defined|]. simpl.
    split; [apply lookup_insert_eq|]. split.
    { intros ->. apply lookup_insert_eq. }
    split; [apply lookup_insert_eq|]. split; [done|].
    intros k' Hne. by rewrite !lookup_insert_ne.
  - intros Hne visit Hperm.
    assert (Hne' : LFUEvictionPolicy.frequencyMap s ≠ ∅).
    { intros He. apply Hne. unfold LFUEvictionPolicy.tracked. rewrite He.
      apply dom_empty_L. }
    destruct (lfu_evict_in_min s visit Hwf Hperm Hne') as (f & o & Hf & Ho & _).
    exists f, o. split; [done|]. split; [done|]. split.
    { by apply lfu_evict_in_strict. }
    by rewrite (lfu_evict_in_state s visit Hwf Hperm).
Qed.

(** In the sample state b has been accessed once, a and c twice. *)
Lemma lfu_access_counts_evict_least_frequent_witness :
  LFUEvictionPolicy.wf lfu_sample
  ∧ LFUEvictionPolicy.currentTime lfu_sample < INT_MAX
  ∧ LFUEvictionPolicy.tracked lfu_sample ≠ ∅
  ∧ (∃ s', LFUEvictionPolicy.access "b" lfu_sample = Some s'
           ∧ LFUEvictionPolicy.frequencyMap s' !! "b"%string = Some 2
           ∧ LFUEvictionPolicy.keyOrder s' !! "b"%string = Some 5)
  ∧ (∃ f o,
       LFUEvictionPolicy.frequencyMap lfu_sample !! (LFUEvictionPolicy.evict lfu_sample).1
       = Some f
       ∧ LFUEvictionPolicy.keyOrder lfu_sample !! (LFUEvictionPolicy.evict lfu_sample).1
         = Some o
       ∧ ∀ k' f' o', k' ≠ (LFUEvictionPolicy.evict lfu_sample).1 →
            LFUEvictionPolicy.frequencyMap lfu_sample !! k' = Some f' →
            LFUEvictionPolicy.keyOrder lfu_sample !! k' = Some o' →
            f < f' ∨ (f = f' ∧ o < o')).
Proof.
  assert (Hwf : LFUEvictionPolicy.wf lfu_sample).
  { apply (lfu_run_wf LFUEvictionPolicy.init ["a"; "b"; "c"; "a"; "c"]%string);
      [apply lfu_init_wf | vm_compute; reflexivity]. }
  assert (Hlt : LFUEvictionPolicy.currentTime lfu_sample < INT_MAX)
    by (vm_compute; reflexivity).
  assert (Hne : LFUEvictionPolicy.tracked lfu_sample ≠ ∅)
    by (vm_compute; discriminate).
  split; [exact Hwf|]. split; [exact Hlt|]. split; [exact Hne|].
  destruct (lfu_access_counts_evict_least_frequent lfu_sample Hwf) as [Hacc Hev].
  split.
  - destruct (Hacc "b"%string Hlt) as (s' & E & Hf & _ & Ho & _).
    exists s'. split; [exact E|]. split; [exact Hf | exact Ho].
  - destruct (Hev Hne (map_to_list (LFUEvictionPolicy.frequencyMap lfu_sample))
                (reflexivity _)) as (f & o & Hf & Ho & Hmin & _).
    exists f, o. split; [exact Hf|]. split; [exact Ho | exact Hmin].
Defined.

(** ** The policy interface *)

Section policy_facts.

Lemma policy_access_inv key p p' :
  policy_wf p → policy_access key p = Some p' →
  policy_wf p' ∧ policy_tracked p' = {[key]} ∪ policy_tracked p.
Proof.
  destruct p as [s|s]; simpl.
  - intros Hwf [= <-]. simpl. split; [by apply lru_access_wf|done].
  - intros Hwf Hacc. destruct (LFUEvictionPolicy.access key s) as [s'|] eqn:E; [|done].
    injection Hacc as <-. simpl. split; [by apply (lfu_access_wf s key)|].
    destruct (lfu_access_time s key s' E) as [Hlt _].
    rewrite (lfu_access_defined s key Hwf Hlt) in E. injection E as <-.
    unfold LFUEvictionPolicy.tracked. simpl. apply dom_insert_L.
Qed.

Lemma policy_access_headroom key p p' n :
  policy_access key p = Some p' → policy_headroom n p → policy_headroom (n - 1) p'.
Proof.
  destruct p as [s|s]; simpl.
  - by intros [= <-].
  - destruct (LFUEvictionPolicy.access key s) as [s'|] eqn:E; [|done].
    intros [= <-]. simpl. destruct (lfu_access_time s key s' E) as [_ ->]. lia.
Qed.

Lemma policy_access_defined key p n :
  policy_wf p → 0 < n → policy_headroom n p →
  ∃ p', policy_access key p = Some p' ∧ policy_headroom (n - 1) p'.
Proof.
  destruct p as [s|s]; simpl; intros Hwf Hn Hroom.
  - eexists. split; [reflexivity|done].
  - rewrite (lfu_access_defined s key Hwf) by lia. simpl.
    eexists. split; [reflexivity|]. simpl. lia.
Qed.

Lemma policy_evict_inv p victim p' :
  policy_wf p → policy_evict p = Some (victim, p') →
  policy_wf p'
  ∧ policy_tracked p' = policy_tracked p ∖ {[victim]}
  ∧ (policy_tracked p ≠ ∅ → victim ∈ policy_tracked p)
  ∧ ∀ n, policy_headroom n p → policy_headroom n p'.
Proof.
  destruct p as [s|s]; simpl.
  - intros Hwf Hev.
    destruct (LRUEvictionPolicy.evict s) as [[k s']|] eqn:E; [|done].
    injection Hev as <- <-. simpl. split; [by apply (lru_evict_wf s k)|].
    unfold LRUEvictionPolicy.evict in E.
    destruct (LRUEvictionPolicy.accessOrder s) as [|x rest] eqn:Eo; [done|].
    injection E as <- <-. unfold LRUEvictionPolicy.tracked. simpl.
    split; [done|]. split; [|done].
    intros _. apply (proj2 Hwf). rewrite Eo. by left.
  - intros Hwf [= <- <-]. simpl.
    destruct (lfu_evict_tracked s Hwf) as [Htr Hin].
    split; [by apply lfu_evict_wf|]. split; [done|]. split; [done|].
    done.
Qed.

Lemma policy_evict_defined p :
  policy_wf p → policy_tracked p ≠ ∅ → is_Some (policy_evict p).
Proof.
  destruct p as [s|s]; simpl; [|by eauto].
  intros [_ Hset] Hne.
  destruct (LRUEvictionPolicy.evict s) as [r|] eqn:E; [by eauto|].
  unfold LRUEvictionPolicy.evict in E.
  destruct (LRUEvictionPolicy.accessOrder s) as [|x rest] eqn:Eo; [|done].
  exfalso. apply Hne. apply set_eq. intros k.
  unfold LRUEvictionPolicy.tracked. rewrite Hset.
  split; [intros []%not_elem_of_nil | intros []%not_elem_of_empty].
Qed.

End policy_facts.

(** ** One cache level *)

Section level_facts.
Import CacheLevel.

Lemma union_singleton_elem (X : gset string) k : k ∈ X → {[k]} ∪ X = X.
Proof. intros Hk. apply subseteq_union_1_L. by apply singleton_subseteq_l. Qed.

Lemma to_size_t_id z : 0 ≤ z ≤ INT_MAX → to_size_t z = z.
Proof.
  intros H. unfold to_size_t, SIZE_BITS. apply Z.mod_small.
  unfold INT_MAX in H. lia.
Qed.

Lemma new_inv capacity name :
  name = "LRU"%string ∨ name = "LFU"%string →
  level_inv (new capacity (MultilevelCacheSystem.make_policy name)).
Proof.
  intros [-> | ->]; eexists; (split; [reflexivity|]); simpl;
    (split; [first [apply lru_init_wf | apply lfu_init_wf]|]).
  - unfold LRUEvictionPolicy.tracked. simpl. by rewrite dom_empty_L.
  - unfold LFUEvictionPolicy.tracked. simpl. done.
Qed.

(** What a completed [put] has done to a level that satisfies the
    invariant. *)
Lemma put_cases key value l l' :
  level_inv l → put key value l = Some l' →
  ∃ p' d,
    l' = mk (size l) (<[key := value]> d) (Some p')
    ∧ policy_wf p'
    ∧ policy_tracked p' = dom (<[key := value]> d)
    ∧ (∀ n, level_headroom n l → policy_headroom (n - 1) p')
    ∧ ((full l ∧ ∃ victim, d = delete victim (data l)
                  ∧ (data l ≠ ∅ → victim ∈ dom (data l)))
       ∨ (¬ full l ∧ d = data l)).
Proof.
  intros (p & Hp & Hwf & Htr) Hput. unfold put in Hput. rewrite Hp in Hput.
  simpl in Hput. destruct (decide (full l)) as [Hfull|Hfull].
  - destruct (policy_evict p) as [[victim p1]|] eqn:Hev; [|done]. simpl in Hput.
    destruct (policy_access key p1) as [p2|] eqn:Hacc; [|done].
    injection Hput as <-.
    destruct (policy_evict_inv p victim p1 Hwf Hev) as (Hwf1 & Htr1 & Hin1 & Hroom1).
    destruct (policy_access_inv key p1 p2 Hwf1 Hacc) as (Hwf2 & Htr2).
    exists p2, (delete victim (data l)). split; [done|]. split; [done|].
    split; [by rewrite Htr2, Htr1, Htr, dom_insert_L, dom_delete_L|]. split.
    + intros n Hn. apply (policy_access_headroom key p1 p2 n Hacc).
      apply Hroom1, Hn, Hp.
    + left. split; [done|]. exists victim. split; [done|].
      intros Hne. rewrite <- Htr. apply Hin1. rewrite Htr.
      by rewrite dom_empty_iff_L.
  - simpl in Hput. destruct (policy_access key p) as [p2|] eqn:Hacc; [|done].
    injection Hput as <-.
    destruct (policy_access_inv key p p2 Hwf Hacc) as (Hwf2 & Htr2).
    exists p2, (data l). split; [done|]. split; [done|].
    split; [by rewrite Htr2, Htr, dom_insert_L|]. split; [|by right].
    intros n Hn. apply (policy_access_headroom key p p2 n Hacc), Hn, Hp.
Qed.

Lemma put_inv key value l l' :
  level_inv l → put key value l = Some l' →
  level_inv l' ∧ size l' = size l ∧ data l' !! key = Some value.
Proof.
  intros Hinv Hput.
  destruct (put_cases key value l l' Hinv Hput) as (p' & d & -> & Hwf & Htr & _).
  split; [by exists p'|]. split; [done|]. simpl. apply lookup_insert_eq.
Qed.

Lemma full_nonempty l : 0 < size l ≤ INT_MAX → full l → data l ≠ ∅.
Proof.
  intros Hcap Hfull He. unfold full in Hfull.
  rewrite to_size_t_id, He, map_size_empty in Hfull by lia. lia.
Qed.

(** On a level of positive capacity that satisfies the invariant, [put]
    is defined as soon as the policy can record one more access. *)
Lemma put_defined key value l :
  level_inv l → 0 < size l ≤ INT_MAX → level_headroom 1 l →
  is_Some (put key value l).
Proof.
  intros (p & Hp & Hwf & Htr) Hcap Hroom. specialize (Hroom p Hp).
  unfold put. rewrite Hp. simpl. destruct (decide (full l)) as [Hfull|Hfull].
  - destruct (policy_evict_defined p Hwf) as [[victim p1] Hev].
    { rewrite Htr, dom_empty_iff_L. by apply full_nonempty. }
    rewrite Hev. simpl.
    destruct (policy_evict_inv p victim p1 Hwf Hev) as (Hwf1 & _ & _ & Hroom1).
    destruct (policy_access_defined key p1 1 Hwf1) as (p2 & -> & _);
      [lia|by apply Hroom1|]. simpl. eauto.
  - simpl. destruct (policy_access_defined key p 1 Hwf) as (p2 & -> & _);
      [lia|done|]. simpl. eauto.
Qed.

(** [get] gives the stored value, or the empty string for a key the
    mapping does not hold, and never changes the mapping. *)
Lemma get_result key l r l' :
  get key l = Some (r, l') →
  r = default EmptyString (data l !! key)
  ∧ data l' = data l ∧ size l' = size l
  ∧ (data l !! key = None → l' = l).
Proof.
  unfold get. destruct (data l !! key) as [value|] eqn:E.
  - destruct (evictionPolicy l) as [p|]; [|done]. simpl.
    destruct (policy_access key p) as [p'|]; [|done]. simpl.
    intros [= <- <-]. done.
  - intros [= <- <-]. done.
Qed.

Lemma get_inv key l r l' :
  level_inv l → get key l = Some (r, l') → level_inv l'.
Proof.
  intros (p & Hp & Hwf & Htr). unfold get.
  destruct (data l !! key) as [value|] eqn:E.
  - rewrite Hp. simpl. destruct (policy_access key p) as [p'|] eqn:Hacc; [|done].
    simpl. intros [= <- <-].
    destruct (policy_access_inv key p p' Hwf Hacc) as (Hwf' & Htr').
    exists p'. split; [done|]. split; [done|]. simpl. rewrite Htr', Htr.
    apply union_singleton_elem, elem_of_dom. eauto.
  - intros [= <- <-]. by exists p.
Qed.

Lemma get_defined key l :
  level_inv l → level_headroom 1 l → is_Some (get key l).
Proof.
  intros (p & Hp & Hwf & Htr) Hroom. specialize (Hroom p Hp). unfold get.
  destruct (data l !! key) as [value|]; [|by eauto].
  rewrite Hp. simpl.
  destruct (policy_access_defined key p 1 Hwf) as (p' & -> & _); [lia|done|].
  simpl. eauto.
Qed.

Lemma update_inv key value l :
  level_inv l → key ∈ dom (data l) → level_inv (update key value l).
Proof.
  intros (p & Hp & Hwf & Htr) Hin. exists p. split; [done|]. split; [done|].
  simpl. rewrite dom_insert_L, Htr. symmetry. by apply union_singleton_elem.
Qed.

Lemma level_step_inv l l' : level_step l l' → level_inv l → level_inv l'.
Proof.
  intros [key l0 r l1 Hget | key value l0 l1 Hput | key value l0 Hin] Hinv.
  - by apply (get_inv key l0 r).
  - by apply (put_inv key value l0 l1).
  - by apply update_inv.
Qed.

Lemma level_steps_inv l l' : rtc level_step l l' → level_inv l → level_inv l'.
Proof.
  induction 1 as [|l1 l2 l3 Hstep _ IH]; [done|].
  intros Hinv. apply IH. by apply (level_step_inv l1).
Qed.

End level_facts.

Lemma map_size_insert_le (key value : string) (m : gmap string string) :
  (size (<[key := value]> m) ≤ S (size m))%nat.
Proof. rewrite map_size_insert. destruct (m !! key); simpl; lia. Qed.

(** C3, as stated, fails: a level of capacity 1 whose only key came in
    through [update] holds one key, and [put] of a second key returns with
    two keys in the mapping, since the policy has no victim to give. *)
Lemma put_after_update_exceeds_capacity :
  0 < CacheLevel.size untracked_level
  ∧ Z.of_nat (size (CacheLevel.data untracked_level)) ≤ CacheLevel.size untracked_level
  ∧ ∃ l', CacheLevel.put "b" "2" untracked_level = Some l'
          ∧ CacheLevel.size l' = 1
          ∧ size (CacheLevel.data l') = 2%nat.
Proof.
  split; [done|]. split; [vm_compute; discriminate|].
  eexists. split; [vm_compute; reflexivity|]. split; vm_compute; reflexivity.
Qed.

(** C3, amended.  On a level of positive capacity whose mapping holds at
    most capacity keys and whose policy tracks exactly the keys of the
    mapping, [put] returns as soon as the policy can record one more
    access, and whenever it returns the mapping holds at most capacity
    keys and the policy still tracks exactly its keys. *)
Theorem put_keeps_capacity (key value : string) (l : CacheLevel.t) :
  0 < CacheLevel.size l ≤ INT_MAX →
  Z.of_nat (size (CacheLevel.data l)) ≤ CacheLevel.size l →
  level_inv l →
  (level_headroom 1 l → is_Some (CacheLevel.put key value l))
  ∧ ∀ l', CacheLevel.put key value l = Some l' →
      Z.of_nat (size (CacheLevel.data l')) ≤ CacheLevel.size l'
      ∧ CacheLevel.size l' = CacheLevel.size l
      ∧ level_inv l'.
Proof.
  intros Hcap Hsize Hinv. split; [by apply put_defined|].
  intros l' Hput.
  destruct (put_inv key value l l' Hinv Hput) as (Hinv' & Hsz & _).
  split; [|done].
  destruct (put_cases key value l l' Hinv Hput) as (p' & d & -> & _ & _ & _ & Hd).
  simpl. pose proof (map_size_insert_le key value d) as Hle.
  destruct Hd as [(Hfull & victim & -> & Hin)|(Hnfull & ->)].
  - specialize (Hin (full_nonempty l Hcap Hfull)).
    apply elem_of_dom in Hin.
    rewrite map_size_delete_Some in Hle by done.
    assert (size (CacheLevel.data l) ≠ 0%nat).
    { apply map_size_non_empty_iff. by apply full_nonempty. }
    lia.
  - unfold CacheLevel.full in Hnfull. rewrite to_size_t_id in Hnfull by lia. lia.
Qed.

(** A third key put into the full level {A, B} of capacity 2. *)
Lemma put_keeps_capacity_witness :
  0 < CacheLevel.size full_level ≤ INT_MAX
  ∧ Z.of_nat (size (CacheLevel.data full_level)) ≤ CacheLevel.size full_level
  ∧ level_inv full_level
  ∧ ∃ l', CacheLevel.put "C" "3" full_level = Some l'
          ∧ Z.of_nat (size (CacheLevel.data l')) ≤ CacheLevel.size l'.
Proof.
  assert (Hcap : 0 < CacheLevel.size full_level ≤ INT_MAX) by (vm_compute; split; [reflexivity | discriminate]).
  assert (Hsize : Z.of_nat (size (CacheLevel.data full_level)) ≤ CacheLevel.size full_level)
    by (vm_compute; discriminate).
  assert (Hinv : level_inv full_level).
  { apply (level_steps_inv (CacheLevel.new 2 (MultilevelCacheSystem.make_policy "LRU"))).
    - eapply rtc_l; [eapply (step_put "A" "1"); vm_compute; reflexivity|].
      eapply rtc_l; [eapply (step_put "B" "2"); vm_compute; reflexivity|].
      vm_compute. apply rtc_refl.
    - apply new_inv. by left. }
  split; [exact Hcap|]. split; [exact Hsize|]. split; [exact Hinv|].
  destruct (put_keeps_capacity "C" "3" full_level Hcap Hsize Hinv) as [Hdef Hbound].
  destruct Hdef as [l' Hput].
  - intros p Hp. vm_compute in Hp. injection Hp as <-. exact I.
  - exists l'. split; [exact Hput|]. apply (Hbound l' Hput).
Defined.

(** C7, as stated, fails: [update] of a key the empty level does not hold
    puts the key in the mapping and leaves the policy as it was. *)
Lemma update_adds_untracked_key :
  CacheLevel.evictionPolicy
    (CacheLevel.update "a" "1"
       (CacheLevel.new 2 (MultilevelCacheSystem.make_policy "LRU")))
  = Some (LRU LRUEvictionPolicy.init)
  ∧ policy_tracked (LRU LRUEvictionPolicy.init) = ∅
  ∧ dom (CacheLevel.data
           (CacheLevel.update "a" "1"
              (CacheLevel.new 2 (MultilevelCacheSystem.make_policy "LRU"))))
    = {["a"%string]}.
Proof.
  split; [reflexivity|]. split; [reflexivity|]. simpl.
  by rewrite insert_empty, dom_singleton_L.
Qed.

(** C7, amended.  Starting from the empty level of either policy, after
    every completed [get] and [put], and every [update] of a key that the
    mapping already holds, the keys tracked by the policy are exactly the
    keys of the mapping. *)
Theorem tracked_keys_are_mapping_keys (capacity : Z) (name : string) (l : CacheLevel.t) :
  name = "LRU"%string ∨ name = "LFU"%string →
  rtc level_step (CacheLevel.new capacity (MultilevelCacheSystem.make_policy name)) l →
  ∃ p, CacheLevel.evictionPolicy l = Some p
       ∧ policy_tracked p = dom (CacheLevel.data l).
Proof.
  intros Hname Hsteps.
  destruct (level_steps_inv _ l Hsteps (new_inv capacity name Hname)) as (p & Hp & _ & Htr).
  by exists p.
Qed.

(** [put] a, [get] a, [put] b and [update] b on a level of capacity 1. *)
Lemma tracked_keys_are_mapping_keys_witness :
  ∃ l,
    rtc level_step (CacheLevel.new 1 (MultilevelCacheSystem.make_policy "LFU")) l
    ∧ CacheLevel.data l = {["b"%string := "3"%string]}
    ∧ ∃ p, CacheLevel.evictionPolicy l = Some p
           ∧ policy_tracked p = dom (CacheLevel.data l).
Proof.
  assert (Hrun : ∃ l,
    rtc level_step (CacheLevel.new 1 (MultilevelCacheSystem.make_policy "LFU")) l
    ∧ CacheLevel.data l = {["b"%string := "3"%string]}).
  { eexists. split.
    - eapply rtc_l; [eapply (step_put "a" "1"); vm_compute; reflexivity|].
      eapply rtc_l; [eapply (step_get "a"); vm_compute; reflexivity|].
      eapply rtc_l; [eapply (step_put "b" "2"); vm_compute; reflexivity|].
      eapply rtc_l; [eapply (step_update "b" "3"); vm_compute; reflexivity|].
      apply rtc_refl.
    - vm_compute. reflexivity. }
  destruct Hrun as (l & Hsteps & Hdata).
  exists l. split; [exact Hsteps|]. split; [exact Hdata|].
  exact (tracked_keys_are_mapping_keys 1 "LFU" l (or_intror eq_refl) Hsteps).
Defined.

(** C6.  On a level whose capacity is a non-negative [int], [put] is the
    operation the specification describes: with at least capacity keys in
    the mapping it takes a victim from the policy and erases it from the
    mapping, whether or not [key] is already there, and in every case it
    then stores [key -> value] and records the access of [key]. *)
Theorem put_evicts_at_capacity (key value : string) (l : CacheLevel.t) :
  0 ≤ CacheLevel.size l ≤ INT_MAX →
  CacheLevel.put key value l = put_spec key value l
  ∧ (CacheLevel.size l ≤ Z.of_nat (size (CacheLevel.data l)) →
     ∀ p victim p1 p2,
       CacheLevel.evictionPolicy l = Some p →
       policy_evict p = Some (victim, p1) →
       policy_access key p1 = Some p2 →
       CacheLevel.put key value l
       = Some (CacheLevel.mk (CacheLevel.size l)
                 (<[key := value]> (delete victim (CacheLevel.data l)))
                 (Some p2)))
  ∧ (¬ CacheLevel.size l ≤ Z.of_nat (size (CacheLevel.data l)) →
     ∀ p p2,
       CacheLevel.evictionPolicy l = Some p →
       policy_access key p = Some p2 →
       CacheLevel.put key value l
       = Some (CacheLevel.mk (CacheLevel.size l)
                 (<[key := value]> (CacheLevel.data l))
                 (Some p2))).
Proof.
  intros Hcap.
  assert (Hfull : CacheLevel.full l
                  ↔ CacheLevel.size l ≤ Z.of_nat (size (CacheLevel.data l))).
  { unfold CacheLevel.full. by rewrite to_size_t_id. }
  split; [|split].
  - unfold CacheLevel.put, put_spec.
    destruct (CacheLevel.evictionPolicy l) as [p|]; [|done]. simpl.
    destruct (decide (CacheLevel.full l)) as [Hf|Hf].
    + rewrite decide_True by (by apply Hfull).
      destruct (policy_evict p) as [[victim p1]|]; done.
    + rewrite decide_False by (by rewrite <- Hfull). done.
  - intros Hge p victim p1 p2 Hp Hev Hacc. unfold CacheLevel.put.
    rewrite Hp. simpl. rewrite decide_True by (by apply Hfull).
    rewrite Hev. simpl. by rewrite Hacc.
  - intros Hlt p p2 Hp Hacc. unfold CacheLevel.put.
    rewrite Hp. simpl. rewrite decide_False by (by rewrite Hfull).
    by rewrite Hacc.
Qed.

(** Overwriting B in the full level {A, B} evicts A. *)
Lemma put_evicts_at_capacity_witness :
  0 ≤ CacheLevel.size full_level ≤ INT_MAX
  ∧ CacheLevel.data full_level !! "B"%string = Some "2"%string
  ∧ ∃ l', CacheLevel.put "B" "9" full_level = Some l'
          ∧ put_spec "B" "9" full_level = Some l'
          ∧ CacheLevel.data l' = {["B"%string := "9"%string]}.
Proof.
  assert (Hcap : 0 ≤ CacheLevel.size full_level ≤ INT_MAX)
    by (vm_compute; split; discriminate).
  split; [exact Hcap|]. split; [vm_compute; reflexivity|].
  destruct (put_evicts_at_capacity "B" "9" full_level Hcap) as (Heq & _).
  eexists. split; [vm_compute; reflexivity|]. split.
  - rewrite <- Heq. vm_compute. reflexivity.
  - vm_compute. reflexivity.
Defined.

(** ** The chain of levels *)

Section system_facts.
Import MultilevelCacheSystem.

Lemma promote_length key value j (c : t) : length (promote key value j c) = length c.
Proof.
  revert c. induction j as [|j IH]; intros c; [done|].
  change (promote key value (S j) c)
    with (promote key value j (alter (CacheLevel.update key value) j c)).
  rewrite IH. apply length_alter.
Qed.

(** The inner loop updates exactly the levels below [j]. *)
Lemma promote_lookup key value j (c : t) (m : nat) :
  promote key value j c !! m
  = if decide (m < j)%nat then CacheLevel.update key value <$> c !! m else c !! m.
Proof.
  revert c. induction j as [|j IH]; intros c.
  - by rewrite decide_False by lia.
  - change (promote key value (S j) c)
      with (promote key value j (alter (CacheLevel.update key value) j c)).
    rewrite IH. destruct (decide (m < j)%nat) as [Hlt|Hge].
    + rewrite decide_True by lia. by rewrite list_lookup_alter_ne by lia.
    + destruct (decide (m = j)) as [->|Hne].
      * rewrite decide_True by lia. apply list_lookup_alter_eq.
      * rewrite decide_False by lia. by rewrite list_lookup_alter_ne by lia.
Qed.

Lemma get_no_value key l r l' :
  CacheLevel.get key l = Some (r, l') → r = EmptyString ↔ no_value key l.
Proof.
  intros Hget. destruct (get_result key l r l' Hget) as (-> & _).
  unfold no_value. destruct (CacheLevel.data l !! key) as [v|]; simpl.
  - split; [intros ->; by right | intros [?|[= ->]]; done].
  - split; [by left | done].
Qed.

(** One iteration of the outer loop. *)
Lemma scan_unfold key n i (c : t) l value l' :
  c !! i = Some l → CacheLevel.get key l = Some (value, l') →
  scan key (S n) i c
  = if decide (value ≠ EmptyString)
    then Some (value, promote key value i (<[i := l']> c))
    else scan key n (S i) (<[i := l']> c).
Proof. intros Hl Hget. simpl. rewrite Hl. simpl. by rewrite Hget. Qed.

(** A scan over levels that do not hold the key changes nothing. *)
Lemma scan_absent key n i (c : t) :
  (i + n ≤ length c)%nat →
  (∀ j l, (i ≤ j)%nat → c !! j = Some l → CacheLevel.data l !! key = None) →
  scan key n i c = Some (EmptyString, c).
Proof.
  revert i c. induction n as [|n IH]; intros i c Hlen Habs; [done|].
  destruct (lookup_lt_is_Some_2 c i) as [l Hl]; [lia|].
  assert (Hget : CacheLevel.get key l = Some (EmptyString, l)).
  { unfold CacheLevel.get. by rewrite (Habs i l (le_n _) Hl). }
  rewrite (scan_unfold key n i c l _ _ Hl Hget).
  destruct (decide (EmptyString ≠ EmptyString)) as [Hne|_]; [done|].
  rewrite list_insert_id by done.
  apply IH; [lia|]. intros j l' Hj. apply Habs. lia.
Qed.

(** The result of a whole scan is the empty string exactly when no level
    from [i] on stores a non-empty value for the key. *)
Lemma scan_empty_result key n i (c : t) r c' :
  (length c ≤ i + n)%nat →
  scan key n i c = Some (r, c') →
  r = EmptyString ↔ ∀ j l, (i ≤ j)%nat → c !! j = Some l → no_value key l.
Proof.
  revert i c. induction n as [|n IH]; intros i c Hlen; simpl.
  - intros [= <- <-]. split; [|done]. intros _ j l Hj Hl.
    apply lookup_lt_Some in Hl. lia.
  - destruct (c !! i) as [l|] eqn:Hl; [|done]. simpl.
    destruct (CacheLevel.get key l) as [[value l1]|] eqn:Hget; [|done]. simpl.
    pose proof (get_no_value key l value l1 Hget) as Hnv.
    destruct (decide (value ≠ EmptyString)) as [Hne|He].
    + intros [= <- <-]. split; [done|]. intros Hall.
      apply Hnv. by apply (Hall i l).
    + assert (value = EmptyString) as -> by (by destruct (decide (value = EmptyString))).
      intros Hscan.
      rewrite (IH (S i) (<[i := l1]> c)); [| rewrite length_insert; lia | done].
      split.
      * intros Hall j l' Hj Hl'. destruct (decide (j = i)) as [->|Hji].
        -- rewrite Hl in Hl'. injection Hl' as <-. by apply Hnv.
        -- apply (Hall j l'); [lia|]. by rewrite list_lookup_insert_ne.
      * intros Hall j l' Hj Hl'. rewrite list_lookup_insert_ne in Hl' by lia.
        apply (Hall j l'); [lia|done].
Qed.

(** A scan that starts at level [i0] and meets its first non-empty value
    [v] at level [i]: the levels below [i0] receive [v] through [update];
    so do the levels from [i0] to [i - 1], after their own [get] has
    answered with the empty string; level [i] is left as its [get] left
    it; the levels beyond [i] are not touched. *)
Lemma scan_hit key v (d : nat) :
  ∀ (i0 i n : nat) (c : t) li,
    i = (i0 + d)%nat → (d < n)%nat →
    c !! i = Some li →
    CacheLevel.data li !! key = Some v → v ≠ EmptyString →
    (∀ j lj, (i0 ≤ j < i)%nat → c !! j = Some lj → no_value key lj) →
    (∀ j lj, (i0 ≤ j ≤ i)%nat → c !! j = Some lj → is_Some (CacheLevel.get key lj)) →
    ∃ c',
      scan key n i0 c = Some (v, c')
      ∧ length c' = length c
      ∧ (∀ j, (j < i0)%nat → c' !! j = CacheLevel.update key v <$> c !! j)
      ∧ (∀ j lj, (i0 ≤ j < i)%nat → c !! j = Some lj →
           ∃ lj1, CacheLevel.get key lj = Some (EmptyString, lj1)
                  ∧ c' !! j = Some (CacheLevel.update key v lj1))
      ∧ (∃ li1, CacheLevel.get key li = Some (v, li1) ∧ c' !! i = Some li1)
      ∧ (∀ j, (i < j)%nat → c' !! j = c !! j).
Proof.
  induction d as [|d IH]; intros i0 i n c li Hi Hn Hli Hv Hne Hbelow Hdef.
  - assert (i = i0) as -> by lia. destruct n as [|n]; [lia|].
    destruct (Hdef i0 li) as [[r li1] Hget]; [lia|done|].
    destruct (get_result key li r li1 Hget) as (Hr & _).
    rewrite Hv in Hr. simpl in Hr. subst r.
    rewrite (scan_unfold key n i0 c li v li1 Hli Hget).
    rewrite decide_True by done. eexists. split; [reflexivity|].
    pose proof (lookup_lt_Some _ _ _ Hli) as Hlt.
    split; [by rewrite promote_length, length_insert|]. split; [|split; [|split]].
    + intros j Hj. rewrite promote_lookup, decide_True by done.
      by rewrite list_lookup_insert_ne by lia.
    + intros j lj Hj. lia.
    + exists li1. split; [done|]. rewrite promote_lookup, decide_False by lia.
      by apply list_lookup_insert_eq.
    + intros j Hj. rewrite promote_lookup, decide_False by lia.
      by rewrite list_lookup_insert_ne by lia.
  - destruct n as [|n]; [lia|].
    pose proof (lookup_lt_Some _ _ _ Hli) as Hlt.
    destruct (lookup_lt_is_Some_2 c i0) as [l0 Hl0]; [lia|].
    destruct (Hdef i0 l0) as [[r0 l01] Hget0]; [lia|done|].
    assert (r0 = EmptyString) as ->.
    { apply (get_no_value key l0 r0 l01 Hget0). apply (Hbelow i0); [lia|done]. }
    rewrite (scan_unfold key n i0 c l0 _ l01 Hl0 Hget0).
    destruct (decide (EmptyString ≠ EmptyString)) as [?|_]; [done|].
    destruct (IH (S i0) i n (<[i0 := l01]> c) li) as (c' & Hscan & Hlen & Hlow & Hmid & Hat & Hhigh).
    + lia.
    + lia.
    + by rewrite list_lookup_insert_ne by lia.
    + done.
    + done.
    + intros j lj Hj Hlj. rewrite list_lookup_insert_ne in Hlj by lia.
      apply (Hbelow j); [lia|done].
    + intros j lj Hj Hlj. rewrite list_lookup_insert_ne in Hlj by lia.
      apply (Hdef j); [lia|done].
    + exists c'. split; [done|]. split; [by rewrite Hlen, length_insert|].
      split; [|split; [|split]].
      * intros j Hj. rewrite Hlow by lia. by rewrite list_lookup_insert_ne by lia.
      * intros j lj Hj Hlj. destruct (decide (j = i0)) as [->|Hji].
        -- rewrite Hl0 in Hlj. injection Hlj as <-. exists l01. split; [done|].
           rewrite Hlow by lia. by rewrite list_lookup_insert_eq by lia.
        -- apply Hmid; [lia|]. by rewrite list_lookup_insert_ne by lia.
      * done.
      * intros j Hj. rewrite Hhigh by done. by rewrite list_lookup_insert_ne by lia.
Qed.

(** When no level but the first holds the key, [get] is the [get] of the
    first level. *)
Lemma get_first_level key (c : t) l0 r l0' :
  c !! 0%nat = Some l0 →
  (∀ i l, c !! S i = Some l → CacheLevel.data l !! key = None) →
  CacheLevel.get key l0 = Some (r, l0') →
  get key c = Some (r, <[0%nat := l0']> c).
Proof.
  intros Hl0 Htail Hget. unfold get.
  destruct c as [|l c]; [done|]. injection Hl0 as ->.
  change (length (l0 :: c)) with (S (length c)).
  rewrite (scan_unfold key (length c) 0 (l0 :: c) l0 r l0' eq_refl Hget).
  destruct (decide (r ≠ EmptyString)) as [Hne|He]; [done|].
  assert (r = EmptyString) as -> by (by destruct (decide (r = EmptyString))).
  apply scan_absent.
  - simpl. lia.
  - intros j l Hj Hl. destruct j as [|j]; [lia|]. by apply (Htail j).
Qed.

Lemma sys_inv_first_level (c : t) l0 l0' :
  sys_inv c → c !! 0%nat = Some l0 →
  level_inv l0' → CacheLevel.size l0' = CacheLevel.size l0 →
  sys_inv (<[0%nat := l0']> c).
Proof.
  intros [Hall Htail] Hl0 Hinv Hsize. split.
  - intros i l Hl. destruct i as [|i].
    + rewrite list_lookup_insert_eq in Hl by (by apply lookup_lt_Some in Hl0).
      injection Hl as <-. rewrite Hsize. split; [done|]. by apply (Hall 0%nat).
    + rewrite list_lookup_insert_ne in Hl by done. by apply (Hall (S i)).
  - intros i l Hl. rewrite list_lookup_insert_ne in Hl by done. by apply (Htail i).
Qed.

(** What [get] does in a state that satisfies the system invariant. *)
Lemma sys_inv_get key (c : t) r c' :
  sys_inv c → get key c = Some (r, c') →
  (c = [] ∧ c' = [] ∧ r = EmptyString)
  ∨ ∃ l0 l0', c !! 0%nat = Some l0
              ∧ CacheLevel.get key l0 = Some (r, l0')
              ∧ c' = <[0%nat := l0']> c.
Proof.
  intros [Hall Htail] Hget. destruct c as [|l0 rest].
  - left. unfold get in Hget. simpl in Hget. by injection Hget as <- <-.
  - right. exists l0.
    destruct (CacheLevel.get key l0) as [[r0 l0']|] eqn:E.
    + assert (Hfirst : get key (l0 :: rest) = Some (r0, <[0%nat := l0']> (l0 :: rest))).
      { apply (get_first_level key (l0 :: rest) l0 r0 l0' eq_refl); [|done].
        intros i l Hl. rewrite (Htail i l Hl). apply lookup_empty. }
      rewrite Hfirst in Hget. injection Hget as <- <-. by exists l0'.
    + unfold get in Hget. simpl in Hget. rewrite E in Hget. done.
Qed.

Lemma reachable_inv (c : t) : reachable c → sys_inv c.
Proof.
  induction 1 as [|c capacity name _ IH Hcap Hname|c level _ IH
                  |c key r c' _ IH Hget|c key value c' _ IH Hput].
  - unfold init. split; intros i l Hl; by rewrite lookup_nil in Hl.
  - destruct IH as [Hall Htail]. unfold addCacheLevel. split.
    + intros i l [Hl|[_ Hl]]%lookup_app_Some; [by apply (Hall i)|].
      apply list_lookup_singleton_Some in Hl as [_ <-].
      split; [by apply new_inv|done].
    + intros i l [Hl|[_ Hl]]%lookup_app_Some; [by apply (Htail i)|].
      by apply list_lookup_singleton_Some in Hl as [_ <-].
  - destruct IH as [Hall Htail]. unfold removeCacheLevel.
    destruct (decide _) as [_|_]; [|done]. split.
    + intros i l. rewrite list_lookup_delete. destruct (decide _); apply Hall.
    + intros i l. rewrite list_lookup_delete. destruct (decide _); apply Htail.
  - destruct (sys_inv_get key c r c' IH Hget)
      as [(_ & -> & _)|(l0 & l0' & Hl0 & Hget0 & ->)].
    + split; intros i l Hl; by rewrite lookup_nil in Hl.
    + destruct (get_result key l0 r l0' Hget0) as (_ & _ & Hsize & _).
      apply (sys_inv_first_level c l0); [done|done| |done].
      apply (get_inv key l0 r); [|done]. by apply (proj1 IH 0%nat).
  - unfold put in Hput. destruct (c !! 0%nat) as [l0|] eqn:Hl0; [|done].
    simpl in Hput. destruct (CacheLevel.put key value l0) as [l0'|] eqn:E; [|done].
    injection Hput as <-.
    destruct (put_inv key value l0 l0') as (Hinv & Hsize & _);
      [by apply (proj1 IH 0%nat)|done|].
    by apply (sys_inv_first_level c l0).
Qed.

End system_facts.

Lemma put_or_stay_reachable key value c :
  reachable c → reachable (put_or_stay key value c).
Proof.
  intros Hc. unfold put_or_stay.
  destruct (MultilevelCacheSystem.put key value c) as [c'|] eqn:E; [|done].
  by apply (reach_put c key value).
Qed.

Lemma demo_state_reachable : reachable demo_state.
Proof.
  unfold demo_state. do 3 apply put_or_stay_reachable.
  apply (reach_add _ 2 "LFU"); [|unfold INT_MAX; lia|by right].
  apply (reach_add _ 3 "LRU"); [|unfold INT_MAX; lia|by left].
  apply reach_init.
Qed.

(** C4.  [get] scans the levels from index 0.  When level [i] is the first
    one whose stored value [v] for the key is not the empty string (the
    test of the code for a hit), and the [get] of every level up to [i] is
    defined, [get] returns [v]; every level [j < i] has first answered its
    own [get] with the empty string and then received [v] through
    [update]: its mapping is the old one with [key -> v] added, whatever
    its capacity, its policy is the one its own [get] left, and when it did
    not hold the key it is otherwise unchanged; level [i] is as its [get]
    left it and the levels beyond are untouched.  In a reachable state the
    first level that holds the key is level 0, and [get] returns its value
    and changes no other level. *)
Theorem get_promotes_first_hit (key : string) (c : MultilevelCacheSystem.t) :
  (∀ (i : nat) li v,
     c !! i = Some li →
     CacheLevel.data li !! key = Some v → v ≠ EmptyString →
     (∀ j lj, (j < i)%nat → c !! j = Some lj → no_value key lj) →
     (∀ j lj, (j ≤ i)%nat → c !! j = Some lj → is_Some (CacheLevel.get key lj)) →
     ∃ c',
       MultilevelCacheSystem.get key c = Some (v, c')
       ∧ length c' = length c
       ∧ (∀ j lj, (j < i)%nat → c !! j = Some lj →
            ∃ lj1,
              CacheLevel.get key lj = Some (EmptyString, lj1)
              ∧ c' !! j = Some (CacheLevel.update key v lj1)
              ∧ CacheLevel.data (CacheLevel.update key v lj1)
                = <[key := v]> (CacheLevel.data lj)
              ∧ CacheLevel.data (CacheLevel.update key v lj1) !! key = Some v
              ∧ CacheLevel.evictionPolicy (CacheLevel.update key v lj1)
                = CacheLevel.evictionPolicy lj1
              ∧ (CacheLevel.data lj !! key = None → lj1 = lj))
       ∧ (∃ li1, CacheLevel.get key li = Some (v, li1) ∧ c' !! i = Some li1)
       ∧ (∀ j, (i < j)%nat → c' !! j = c !! j))
  ∧ (reachable c →
     ∀ (i : nat) li v,
       c !! i = Some li →
       CacheLevel.data li !! key = Some v →
       (∀ j lj, (j < i)%nat → c !! j = Some lj → CacheLevel.data lj !! key = None) →
       i = 0%nat
       ∧ ∀ r li1, CacheLevel.get key li = Some (r, li1) →
           r = v ∧ MultilevelCacheSystem.get key c = Some (v, <[0%nat := li1]> c)).
Proof.
  split.
  - intros i li v Hli Hv Hne Hbelow Hdef.
    destruct (scan_hit key v i 0 i (length c) c li) as (c' & Hscan & Hlen & _ & Hmid & Hat & Hhigh).
    + done.
    + by apply lookup_lt_Some in Hli.
    + done.
    + done.
    + done.
    + intros j lj Hj. apply Hbelow. lia.
    + intros j lj Hj. apply Hdef. lia.
    + exists c'. split; [done|]. split; [done|]. split; [|done].
      intros j lj Hj Hlj. destruct (Hmid j lj) as (lj1 & Hget & Hc'); [lia|done|].
      destruct (get_result key lj _ lj1 Hget) as (_ & Hdata & _ & Hsame).
      exists lj1. split; [done|]. split; [done|]. simpl. rewrite Hdata.
      split; [done|]. split; [apply lookup_insert_eq|]. split; [done|].
      intros Hnone. by apply Hsame.
  - intros Hreach i li v Hli Hv Hbelow.
    destruct (reachable_inv c Hreach) as [Hall Htail].
    assert (i = 0%nat) as ->.
    { destruct i as [|i]; [done|]. rewrite (Htail i li Hli) in Hv.
      by rewrite lookup_empty in Hv. }
    split; [done|]. intros r li1 Hget.
    destruct (get_result key li r li1 Hget) as (Hr & _).
    rewrite Hv in Hr. simpl in Hr. subst r. split; [done|].
    apply (get_first_level key c li v li1 Hli); [|done].
    intros j l Hl. rewrite (Htail j l Hl). apply lookup_empty.
Qed.

(** In the seeded chain the hit on k at level 1 leaves level 0, of capacity
    1, with the two keys x and k; in the state of [main] the key A is found
    at level 0. *)
Lemma get_promotes_first_hit_witness :
  (∃ c' l0',
     MultilevelCacheSystem.get "k" seeded_chain = Some ("v"%string, c')
     ∧ c' !! 0%nat = Some l0'
     ∧ CacheLevel.data l0' !! "k"%string = Some "v"%string
     ∧ CacheLevel.size l0' = 1
     ∧ size (CacheLevel.data l0') = 2%nat)
  ∧ reachable demo_state
  ∧ ∃ c', MultilevelCacheSystem.get "A" demo_state = Some ("1"%string, c').
Proof.
  split; [|split; [exact demo_state_reachable|]].
  - destruct (get_promotes_first_hit "k" seeded_chain) as [Hpromote _].
    destruct (Hpromote 1%nat
                (default (CacheLevel.new 2 None)
                   (CacheLevel.put "k" "v"
                      (CacheLevel.new 2 (MultilevelCacheSystem.make_policy "LFU"))))
                "v"%string)
      as (c' & Hget & _ & Hlow & _).
    + reflexivity.
    + vm_compute. reflexivity.
    + discriminate.
    + intros j lj Hj Hlj. destruct j as [|j]; [|lia].
      injection Hlj as <-. left. vm_compute. reflexivity.
    + intros j lj Hj Hlj. destruct j as [|[|j]]; [| |lia].
      * injection Hlj as <-. vm_compute. eauto.
      * injection Hlj as <-. vm_compute. eauto.
    + destruct (Hlow 0%nat _ (Nat.lt_0_succ 0) eq_refl)
        as (lj1 & Hget0 & Hc' & Hdata & Hk & _).
      exists c', (CacheLevel.update "k" "v" lj1).
      split; [exact Hget|]. split; [exact Hc'|]. split; [exact Hk|].
      vm_compute in Hget0. injection Hget0 as <-.
      split; vm_compute; reflexivity.
  - destruct (get_promotes_first_hit "A" demo_state) as [_ Hreach].
    destruct (Hreach demo_state_reachable 0%nat
                (CacheLevel.mk 3
                   (<["C"%string := "3"%string]>
                      (<["B"%string := "2"%string]> {["A"%string := "1"%string]}))
                   (Some (LRU (lru_run LRUEvictionPolicy.init ["A"; "B"; "C"]%string))))
                "1"%string)
      as (_ & Hget).
    + vm_compute. reflexivity.
    + vm_compute. reflexivity.
    + intros j lj Hj. lia.
    + eexists. apply (Hget "1"%string). vm_compute. reflexivity.
Defined.

(** C5, as stated, fails: a level that does not hold k and a level that
    stores the empty string under k answer [get] with the same string, and
    so do the chains made of either level. *)
Lemma empty_value_reads_as_miss :
  CacheLevel.data (CacheLevel.new 2 (MultilevelCacheSystem.make_policy "LRU")) !! "k"%string
  = None
  ∧ CacheLevel.data empty_value_level !! "k"%string = Some EmptyString
  ∧ fst <$> CacheLevel.get "k" (CacheLevel.new 2 (MultilevelCacheSystem.make_policy "LRU"))
    = Some EmptyString
  ∧ fst <$> CacheLevel.get "k" empty_value_level = Some EmptyString
  ∧ fst <$> MultilevelCacheSystem.get "k"
              [CacheLevel.new 2 (MultilevelCacheSystem.make_policy "LRU")]
    = Some EmptyString
  ∧ fst <$> MultilevelCacheSystem.get "k" [empty_value_level] = Some EmptyString.
Proof. repeat split; vm_compute; reflexivity. Qed.

(** C5, amended.  [get] signals a miss with the empty string.  A level
    answers a key it does not hold with the empty string and is left
    unchanged, and so does a chain none of whose levels holds the key.
    Whenever [get] returns, the result of a level is the empty string
    exactly when the key is absent or stored with the empty string, and a
    non-empty result is the stored value; the result of a chain is the
    empty string exactly when every level is in that case.  So only a
    non-empty stored value can be told from a miss. *)
Theorem miss_is_the_empty_string (key : string) :
  (∀ l, CacheLevel.data l !! key = None →
        CacheLevel.get key l = Some (EmptyString, l))
  ∧ (∀ l r l', CacheLevel.get key l = Some (r, l') →
       (r = EmptyString ↔ no_value key l)
       ∧ (r ≠ EmptyString → CacheLevel.data l !! key = Some r))
  ∧ (∀ c : MultilevelCacheSystem.t,
       (∀ l, l ∈ c → CacheLevel.data l !! key = None) →
       MultilevelCacheSystem.get key c = Some (EmptyString, c))
  ∧ (∀ (c : MultilevelCacheSystem.t) r c',
       MultilevelCacheSystem.get key c = Some (r, c') →
       r = EmptyString ↔ ∀ l, l ∈ c → no_value key l).
Proof.
  split; [|split; [|split]].
  - intros l Hnone. unfold CacheLevel.get. by rewrite Hnone.
  - intros l r l' Hget. split; [by apply (get_no_value key l r l')|].
    destruct (get_result key l r l' Hget) as (-> & _).
    destruct (CacheLevel.data l !! key) as [v|]; simpl; [done|]. intros H. by destruct H.
  - intros c Hall. apply scan_absent; [simpl; lia|].
    intros j l _ Hl. apply Hall. by apply list_elem_of_lookup_2 with j.
  - intros c r c' Hget.
    rewrite (scan_empty_result key (length c) 0 c r c' (le_n _) Hget).
    split.
    + intros Hall l [j Hl]%list_elem_of_lookup_1. apply (Hall j l); [lia|done].
    + intros Hall j l _ Hl. apply Hall. by apply list_elem_of_lookup_2 with j.
Qed.

(** The level storing the empty string under k answers with the empty
    string; the chain of [main] answers B with its non-empty value. *)
Lemma miss_is_the_empty_string_witness :
  CacheLevel.get "k" empty_value_level
  = Some (EmptyString,
          CacheLevel.mk 2 {["k"%string := EmptyString]}
            (Some (LRU (lru_run LRUEvictionPolicy.init ["k"; "k"]%string))))
  ∧ no_value "k" empty_value_level
  ∧ MultilevelCacheSystem.get "B" demo_state
    = Some ("2"%string, <[0%nat := default (CacheLevel.new 0 None)
                                      (snd <$> (demo_state !! 0%nat
                                                ≫= CacheLevel.get "B"))]> demo_state)
  ∧ ¬ ∀ l, l ∈ demo_state → no_value "B" l.
Proof.
  destruct (miss_is_the_empty_string "k") as (_ & Hlevel & _).
  destruct (miss_is_the_empty_string "B") as (_ & _ & _ & Hchain).
  assert (Hget : CacheLevel.get "k" empty_value_level
    = Some (EmptyString,
            CacheLevel.mk 2 {["k"%string := EmptyString]}
              (Some (LRU (lru_run LRUEvictionPolicy.init ["k"; "k"]%string)))))
    by (vm_compute; reflexivity).
  assert (Hget' : MultilevelCacheSystem.get "B" demo_state
    = Some ("2"%string, <[0%nat := default (CacheLevel.new 0 None)
                                      (snd <$> (demo_state !! 0%nat
                                                ≫= CacheLevel.get "B"))]> demo_state))
    by (vm_compute; reflexivity).
  split; [exact Hget|]. split; [|split; [exact Hget'|]].
  - apply (Hlevel _ _ _ Hget). reflexivity.
  - intros Hall. apply (Hchain _ _ _ Hget') in Hall. discriminate.
Defined.

(** C8.  What the code does with a policy name that is neither LRU nor LFU:
    [addCacheLevel] appends a level whose policy pointer is null, and the
    first [put] that reaches this level dereferences the null pointer. *)
Theorem addCacheLevel_unknown_policy (c : MultilevelCacheSystem.t) :
  MultilevelCacheSystem.addCacheLevel 2 "BOGUS" c = c ++ [CacheLevel.new 2 None]
  ∧ length (MultilevelCacheSystem.addCacheLevel 2 "BOGUS" c) = S (length c)
  ∧ (∀ key value,
       MultilevelCacheSystem.put key value
         (MultilevelCacheSystem.addCacheLevel 2 "BOGUS" MultilevelCacheSystem.init)
       = None).
Proof.
  split; [reflexivity|]. split.
  - unfold MultilevelCacheSystem.addCacheLevel. rewrite length_app. simpl. lia.
  - intros key value. reflexivity.
Qed.

Lemma policy_headroom_mono n m p :
  m ≤ n → policy_headroom n p → policy_headroom m p.
Proof. destruct p as [s|s]; simpl; [done|lia]. Qed.

(** C9.  In every reachable state with at least one level, whose first
    level can record two more accesses, [put key value] returns, the [get]
    of the same key that follows returns, and its result is [value], the
    empty string included. *)
Theorem put_then_get_round_trip (key value : string) (c : MultilevelCacheSystem.t) :
  reachable c → c ≠ [] →
  (∀ l0, c !! 0%nat = Some l0 → level_headroom 2 l0) →
  ∃ c' c'',
    MultilevelCacheSystem.put key value c = Some c'
    ∧ MultilevelCacheSystem.get key c' = Some (value, c'').
Proof.
  intros Hreach Hne Hroom.
  pose proof (reachable_inv c Hreach) as Hsys.
  destruct c as [|l0 rest]; [done|]. clear Hne.
  destruct (proj1 Hsys 0%nat l0 eq_refl) as [Hinv Hcap].
  specialize (Hroom l0 eq_refl).
  destruct (put_defined key value l0 Hinv Hcap) as [l0' Hput].
  { intros p Hp. apply (policy_headroom_mono 2); [lia|]. by apply Hroom. }
  destruct (put_cases key value l0 l0' Hinv Hput) as (p' & d & Hl0' & Hwf' & Htr' & Hroom' & _).
  destruct (put_inv key value l0 l0' Hinv Hput) as (Hinv' & Hsize' & Hdata').
  destruct (get_defined key l0' Hinv') as [[r l0''] Hget].
  { intros p Hp. rewrite Hl0' in Hp. injection Hp as <-.
    apply (policy_headroom_mono (2 - 1)); [lia|]. by apply Hroom'. }
  destruct (get_result key l0' r l0'' Hget) as (Hr & _).
  rewrite Hdata' in Hr. simpl in Hr. subst r.
  exists (l0' :: rest), (l0'' :: rest). split.
  - unfold MultilevelCacheSystem.put. simpl. by rewrite Hput.
  - apply (get_first_level key (l0' :: rest) l0' value l0'' eq_refl); [|done].
    intros i l Hl. rewrite (proj2 Hsys i l Hl). apply lookup_empty.
Qed.

(** The empty string stored under D in the state of [main] is read back. *)
Lemma put_then_get_round_trip_witness :
  reachable demo_state
  ∧ demo_state ≠ []
  ∧ ∃ c' c'',
      MultilevelCacheSystem.put "D" EmptyString demo_state = Some c'
      ∧ MultilevelCacheSystem.get "D" c' = Some (EmptyString, c'').
Proof.
  split; [exact demo_state_reachable|].
  assert (Hne : demo_state ≠ []) by (vm_compute; discriminate).
  split; [exact Hne|].
  apply (put_then_get_round_trip "D" EmptyString demo_state demo_state_reachable Hne).
  intros l0 Hl0 p Hp. vm_compute in Hl0. injection Hl0 as <-.
  injection Hp as <-. exact I.
Defined.

(** C10.  [put] of the chain reads level 0 with no test for emptiness: on
    the empty chain the read, and so the call, has no defined result; on a
    chain with a first level the read is in bounds and the call is the
    [put] of that level, the other levels being left as they are. *)
Theorem put_needs_a_level (key value : string) :
  MultilevelCacheSystem.put key value [] = None
  ∧ ∀ l0 (rest : MultilevelCacheSystem.t),
      (l0 :: rest) !! 0%nat = Some l0
      ∧ MultilevelCacheSystem.put key value (l0 :: rest)
        = (λ l0', l0' :: rest) <$> CacheLevel.put key value l0.
Proof.
  split; [reflexivity|]. intros l0 rest. split; [reflexivity|].
  unfold MultilevelCacheSystem.put. simpl.
  by destruct (CacheLevel.put key value l0).
Qed.

(** * Further properties *)

(** ** Adding and removing levels *)

(** X1.  [removeCacheLevel] with an [int] that is below 1 or above the
    number of levels leaves the chain as it is; with [level] between 1 and
    the number of levels it removes exactly the level at index [level - 1]:
    the chain is one shorter, the levels before keep their index and the
    levels after move down by one. *)
Theorem removeCacheLevel_range (level : Z) (c : MultilevelCacheSystem.t) :
  - INT_MAX - 1 ≤ level ≤ INT_MAX →
  (level < 1 ∨ Z.of_nat (length c) < level →
   MultilevelCacheSystem.removeCacheLevel level c = c)
  ∧ (1 ≤ level ≤ Z.of_nat (length c) →
     length (MultilevelCacheSystem.removeCacheLevel level c) = pred (length c)
     ∧ ∀ j : nat,
         MultilevelCacheSystem.removeCacheLevel level c !! j
         = if decide (Z.of_nat j < level - 1) then c !! j else c !! S j).
Proof.
  intros Hint. unfold MultilevelCacheSystem.removeCacheLevel. split.
  - intros Hout. destruct (decide _) as [[H1 H2]|_]; [|done].
    rewrite to_size_t_id in H2 by lia. lia.
  - intros Hin. rewrite decide_True by (rewrite to_size_t_id by lia; lia).
    split.
    + rewrite length_delete; [lia|]. apply lookup_lt_is_Some_2. lia.
    + intros j. rewrite list_lookup_delete.
      destruct (decide (j < Z.to_nat (level - 1))%nat);
        destruct (decide (Z.of_nat j < level - 1)); (done || lia).
Qed.

(** Level 5 of the two levels of [main] does not exist; level 1 does. *)
Lemma removeCacheLevel_range_witness :
  (- INT_MAX - 1 ≤ 5 ≤ INT_MAX)
  ∧ MultilevelCacheSystem.removeCacheLevel 5 demo_chain = demo_chain
  ∧ length (MultilevelCacheSystem.removeCacheLevel 1 demo_chain) = 1%nat.
Proof.
  assert (H5 : - INT_MAX - 1 ≤ 5 ≤ INT_MAX) by (unfold INT_MAX; lia).
  assert (H1 : - INT_MAX - 1 ≤ 1 ≤ INT_MAX) by (unfold INT_MAX; lia).
  split; [exact H5|]. split.
  - apply (removeCacheLevel_range 5 demo_chain H5). right. simpl. lia.
  - apply (removeCacheLevel_range 1 demo_chain H1). simpl. lia.
Defined.

(** X2.  [addCacheLevel] puts the new, empty level of the given capacity
    behind the levels already there, which keep their index; removing the
    level just added (its 1-based number is the new length) gives the chain
    back. *)
Theorem addCacheLevel_then_remove_last
    (capacity : Z) (name : string) (c : MultilevelCacheSystem.t) :
  Z.of_nat (length c) < INT_MAX →
  length (MultilevelCacheSystem.addCacheLevel capacity name c) = S (length c)
  ∧ (∀ j l, c !! j = Some l →
       MultilevelCacheSystem.addCacheLevel capacity name c !! j = Some l)
  ∧ (∃ l, MultilevelCacheSystem.addCacheLevel capacity name c !! length c = Some l
          ∧ CacheLevel.size l = capacity ∧ CacheLevel.data l = ∅)
  ∧ MultilevelCacheSystem.removeCacheLevel (Z.of_nat (length c) + 1)
      (MultilevelCacheSystem.addCacheLevel capacity name c) = c.
Proof.
  intros Hlen. unfold MultilevelCacheSystem.addCacheLevel.
  split; [rewrite length_app; simpl; lia|]. split; [|split].
  - intros j l Hl. by apply lookup_app_l_Some.
  - exists (CacheLevel.new capacity (MultilevelCacheSystem.make_policy name)).
    split; [|split; reflexivity].
    rewrite lookup_app_r by lia. by rewrite Nat.sub_diag.
  - unfold MultilevelCacheSystem.removeCacheLevel.
    rewrite decide_True.
    + replace (Z.to_nat (Z.of_nat (length c) + 1 - 1)) with (length c) by lia.
      rewrite delete_middle. apply app_nil_r.
    + rewrite to_size_t_id by lia. rewrite length_app. simpl. lia.
Qed.

Lemma addCacheLevel_then_remove_last_witness :
  Z.of_nat (length demo_state) < INT_MAX
  ∧ MultilevelCacheSystem.removeCacheLevel 3
      (MultilevelCacheSystem.addCacheLevel 4 "LRU" demo_state) = demo_state.
Proof.
  assert (H : Z.of_nat (length demo_state) < INT_MAX) by (vm_compute; reflexivity).
  split; [exact H|].
  exact (proj2 (proj2 (proj2 (addCacheLevel_then_remove_last 4 "LRU" demo_state H)))).
Defined.

(** ** Edge cases of the capacity of a level *)

(** X3.  A negative capacity never evicts: the [int] is converted to
    [size_t] for the comparison with [data.size()], so the level is never
    found full and [put] only stores the entry and records the access. *)
Theorem put_negative_capacity_never_evicts (key value : string) (l : CacheLevel.t) :
  - INT_MAX - 1 ≤ CacheLevel.size l < 0 →
  Z.of_nat (size (CacheLevel.data l)) < 2 ^ 63 →
  ¬ CacheLevel.full l
  ∧ CacheLevel.put key value l
    = (p ← CacheLevel.evictionPolicy l;
       p2 ← policy_access key p;
       Some (CacheLevel.mk (CacheLevel.size l)
               (<[key := value]> (CacheLevel.data l)) (Some p2))).
Proof.
  intros Hneg Hsize.
  assert (Hnf : ¬ CacheLevel.full l).
  { unfold CacheLevel.full, to_size_t, SIZE_BITS.
    rewrite <- (Z_mod_plus_full (CacheLevel.size l) 1 (2 ^ 64)).
    unfold INT_MAX in Hneg. rewrite Z.mod_small by lia. lia. }
  split; [done|]. unfold CacheLevel.put.
  destruct (CacheLevel.evictionPolicy l) as [p|]; [|done]. simpl.
  by rewrite decide_False.
Qed.

(** A level of capacity -1 accepts a third key and keeps the first two. *)
Lemma put_negative_capacity_never_evicts_witness :
  ∃ l l',
    CacheLevel.size l = -1
    ∧ size (CacheLevel.data l) = 2%nat
    ∧ CacheLevel.put "c" "3" l = Some l'
    ∧ size (CacheLevel.data l') = 3%nat.
Proof.
  exists (CacheLevel.mk (-1)
            (<["a"%string := "1"%string]> {["b"%string := "2"%string]})
            (Some (LRU (lru_run LRUEvictionPolicy.init ["a"; "b"]%string)))).
  eexists. split; [reflexivity|]. split; [vm_compute; reflexivity|].
  destruct (put_negative_capacity_never_evicts "c" "3"
              (CacheLevel.mk (-1)
                 (<["a"%string := "1"%string]> {["b"%string := "2"%string]})
                 (Some (LRU (lru_run LRUEvictionPolicy.init ["a"; "b"]%string)))))
    as [_ Heq].
  - unfold INT_MAX. simpl. lia.
  - vm_compute. reflexivity.
  - split; [rewrite Heq; reflexivity|]. vm_compute. reflexivity.
Defined.

(** X4.  [put] on a level that is found full while its recency policy tracks
    no key has no defined result: [evict] reads the front of an empty list.
    This is the case of the first [put] on a level of capacity 0. *)
Theorem put_undefined_without_victim
    (key value : string) (l : CacheLevel.t) (s : LRUEvictionPolicy.t) :
  CacheLevel.evictionPolicy l = Some (LRU s) →
  LRUEvictionPolicy.accessOrder s = [] →
  CacheLevel.full l →
  CacheLevel.put key value l = None.
Proof.
  intros Hp Hs Hfull. unfold CacheLevel.put. rewrite Hp. simpl.
  rewrite decide_True by done. simpl. unfold LRUEvictionPolicy.evict.
  by rewrite Hs.
Qed.

Lemma put_undefined_without_victim_witness :
  CacheLevel.full (CacheLevel.new 0 (MultilevelCacheSystem.make_policy "LRU"))
  ∧ CacheLevel.put "a" "1" (CacheLevel.new 0 (MultilevelCacheSystem.make_policy "LRU"))
    = None.
Proof.
  assert (Hfull : CacheLevel.full
                    (CacheLevel.new 0 (MultilevelCacheSystem.make_policy "LRU")))
    by (vm_compute; discriminate).
  split; [exact Hfull|].
  exact (put_undefined_without_victim "a" "1"
           (CacheLevel.new 0 (MultilevelCacheSystem.make_policy "LRU"))
           LRUEvictionPolicy.init eq_refl eq_refl Hfull).
Defined.

(** X5.  A frequency level of capacity 0 holds one key at a time: on the
    empty policy [evict] returns the empty key and removes nothing, so the
    first [put] is defined, and every [put] on at most one key leaves the
    mapping with exactly the entry just put. *)
Theorem put_zero_capacity_lfu
    (key value : string) (l : CacheLevel.t) (s : LFUEvictionPolicy.t) :
  CacheLevel.size l = 0 →
  CacheLevel.evictionPolicy l = Some (LFU s) →
  level_inv l →
  (size (CacheLevel.data l) ≤ 1)%nat →
  LFUEvictionPolicy.currentTime s < INT_MAX →
  ∃ l', CacheLevel.put key value l = Some l'
        ∧ CacheLevel.data l' = {[key := value]}
        ∧ level_inv l'.
Proof.
  intros Hcap Hp Hinv Hsize Htime.
  assert (Hfull : CacheLevel.full l).
  { unfold CacheLevel.full. rewrite Hcap. unfold to_size_t. rewrite Z.mod_0_l by done. lia. }
  destruct Hinv as (p & Hp' & Hwf & Htr). rewrite Hp in Hp'. injection Hp' as <-.
  assert (Hinv : level_inv l) by (exists (LFU s); done).
  destruct (policy_evict (LFU s)) as [[victim p1]|] eqn:Hev; [|done].
  destruct (policy_evict_inv (LFU s) victim p1 Hwf Hev) as (Hwf1 & _ & _ & Hroom1).
  destruct (policy_access_defined key p1 1 Hwf1) as (p2 & Hacc & _); [lia| |].
  { apply Hroom1. simpl. lia. }
  assert (Hput : CacheLevel.put key value l
                 = Some (CacheLevel.mk (CacheLevel.size l)
                           (<[key := value]> (delete victim (CacheLevel.data l)))
                           (Some p2))).
  { unfold CacheLevel.put. rewrite Hp. cbn [mbind option_bind].
    rewrite decide_True by done. rewrite Hev. cbn [mbind option_bind].
    rewrite Hacc. done. }
  eexists. split; [exact Hput|].
  destruct (put_inv key value l _ Hinv Hput) as (Hinv' & _).
  split; [|done]. simpl.
  destruct (put_cases key value l _ Hinv Hput) as (p' & d & Heq & _ & _ & _ & Hd).
  injection Heq as Hdata _.
  destruct Hd as [(_ & victim' & -> & Hin)|[Hnf _]]; [|done].
  rewrite Hdata.
  assert (Hd : delete victim' (CacheLevel.data l) = ∅).
  { apply map_size_empty_iff.
    destruct (decide (CacheLevel.data l = ∅)) as [He|Hne].
    - rewrite He, delete_empty. apply map_size_empty.
    - specialize (Hin Hne). apply elem_of_dom in Hin.
      rewrite map_size_delete_Some by done.
      apply map_size_non_empty_iff in Hne. lia. }
  rewrite Hd. apply insert_empty.
Qed.

Lemma put_zero_capacity_lfu_witness :
  ∃ l' l'',
    CacheLevel.put "a" "1" (CacheLevel.new 0 (MultilevelCacheSystem.make_policy "LFU"))
    = Some l'
    ∧ CacheLevel.put "b" "2" l' = Some l''
    ∧ CacheLevel.data l'' = {["b"%string := "2"%string]}.
Proof.
  destruct (put_zero_capacity_lfu "a" "1"
              (CacheLevel.new 0 (MultilevelCacheSystem.make_policy "LFU"))
              LFUEvictionPolicy.init)
    as (l' & Hput & Hdata & Hinv).
  - reflexivity.
  - reflexivity.
  - apply new_inv. by right.
  - vm_compute. lia.
  - vm_compute. reflexivity.
  - exists l'.
    assert (Hl' : l' = CacheLevel.mk 0 {["a"%string := "1"%string]}
                         (Some (LFU (default LFUEvictionPolicy.init
                                       (lfu_run LFUEvictionPolicy.init ["a"%string]))))).
    { vm_compute in Hput. injection Hput as <-. vm_compute. reflexivity. }
    destruct (put_zero_capacity_lfu "b" "2" l'
                (default LFUEvictionPolicy.init
                   (lfu_run LFUEvictionPolicy.init ["a"%string])))
      as (l'' & Hput' & Hdata' & _).
    + rewrite Hl'. reflexivity.
    + rewrite Hl'. reflexivity.
    + exact Hinv.
    + rewrite Hdata. vm_compute. lia.
    + vm_compute. reflexivity.
    + exists l''. split; [exact Hput|]. split; [exact Hput'|exact Hdata'].
Defined.

(** ** What the operations of a level do to its mapping *)

Lemma put_stores (key value : string) (l l' : CacheLevel.t) :
  CacheLevel.put key value l = Some l' → CacheLevel.data l' !! key = Some value.
Proof.
  unfold CacheLevel.put.
  destruct (CacheLevel.evictionPolicy l) as [p|]; [|done]. simpl.
  destruct (decide (CacheLevel.full l)).
  - destruct (policy_evict p) as [[victim p1]|]; [|done]. simpl.
    destruct (policy_access key p1) as [p2|]; [|done]. simpl.
    intros [= <-]. apply lookup_insert_eq.
  - simpl. destruct (policy_access key p) as [p2|]; [|done]. simpl.
    intros [= <-]. apply lookup_insert_eq.
Qed.

(** X6.  A completed [put] leaves the capacity alone, stores [value] under
    [key], and touches at most one other key: on a level that is not full
    every other key keeps what it had, and on a full level there is one
    victim such that every other key but the victim keeps what it had and
    the victim is gone. *)
Theorem put_footprint (key value : string) (l l' : CacheLevel.t) :
  CacheLevel.put key value l = Some l' →
  CacheLevel.size l' = CacheLevel.size l
  ∧ CacheLevel.data l' !! key = Some value
  ∧ ((¬ CacheLevel.full l
      ∧ ∀ k, k ≠ key → CacheLevel.data l' !! k = CacheLevel.data l !! k)
     ∨ (CacheLevel.full l
        ∧ ∃ victim, ∀ k, k ≠ key →
            CacheLevel.data l' !! k
            = if decide (k = victim) then None else CacheLevel.data l !! k)).
Proof.
  unfold CacheLevel.put.
  destruct (CacheLevel.evictionPolicy l) as [p|]; [|done]. simpl.
  destruct (decide (CacheLevel.full l)) as [Hfull|Hfull].
  - destruct (policy_evict p) as [[victim p1]|]; [|done]. simpl.
    destruct (policy_access key p1) as [p2|]; [|done]. simpl.
    intros [= <-]. simpl. split; [done|]. split; [apply lookup_insert_eq|].
    right. split; [done|]. exists victim. intros k Hk.
    rewrite lookup_insert_ne by done. rewrite lookup_delete.
    destruct (decide (victim = k)), (decide (k = victim)); congruence.
  - simpl. destruct (policy_access key p) as [p2|]; [|done]. simpl.
    intros [= <-]. simpl. split; [done|]. split; [apply lookup_insert_eq|].
    left. split; [done|]. intros k Hk. by rewrite lookup_insert_ne.
Qed.

(** Putting D into the full level of [main] removes A only. *)
Lemma put_footprint_witness :
  ∃ l',
    CacheLevel.put "D" "4" demo_level = Some l'
    ∧ CacheLevel.data l' !! "D"%string = Some "4"%string
    ∧ CacheLevel.data l' !! "A"%string = None
    ∧ CacheLevel.data l' !! "B"%string = Some "2"%string.
Proof.
  assert (Hput : is_Some (CacheLevel.put "D" "4" demo_level)) by (vm_compute; eauto).
  destruct Hput as [l' Hput]. exists l'. split; [exact Hput|].
  destruct (put_footprint "D" "4" demo_level l' Hput) as (_ & HD & _).
  split; [exact HD|].
  vm_compute in Hput. injection Hput as <-. split; vm_compute; reflexivity.
Defined.

(** X7.  [contains] tells whether the mapping holds the key and is not
    changed for any key by a [get]; after a completed [put] of the key, and
    after an [update] of the key, it is true. *)
Theorem contains_after_operations (key : string) (l : CacheLevel.t) :
  (CacheLevel.contains key l = true ↔ key ∈ dom (CacheLevel.data l))
  ∧ (∀ k r l', CacheLevel.get k l = Some (r, l') →
       CacheLevel.contains key l' = CacheLevel.contains key l)
  ∧ (∀ value l', CacheLevel.put key value l = Some l' →
       CacheLevel.contains key l' = true)
  ∧ (∀ value, CacheLevel.contains key (CacheLevel.update key value l) = true).
Proof.
  unfold CacheLevel.contains. split; [|split; [|split]].
  - rewrite bool_decide_eq_true. symmetry. apply elem_of_dom.
  - intros k r l' Hget. destruct (get_result k l r l' Hget) as (_ & -> & _). done.
  - intros value l' Hput. apply bool_decide_eq_true.
    rewrite (put_stores key value l l' Hput). eauto.
  - intros value. apply bool_decide_eq_true. simpl. rewrite lookup_insert_eq. eauto.
Qed.

Lemma contains_after_operations_witness :
  CacheLevel.contains "A" demo_level = true
  ∧ ∃ l', CacheLevel.put "D" "4" demo_level = Some l'
          ∧ CacheLevel.contains "D" l' = true.
Proof.
  destruct (contains_after_operations "A" demo_level) as (HA & _).
  destruct (contains_after_operations "D" demo_level) as (_ & _ & HD & _).
  split.
  - apply HA. vm_compute. reflexivity.
  - assert (Hput : is_Some (CacheLevel.put "D" "4" demo_level)) by (vm_compute; eauto).
    destruct Hput as [l' Hput]. exists l'. split; [exact Hput|].
    exact (HD "4"%string l' Hput).
Defined.

(** ** What eviction spares *)

(** X8.  Under the recency policy a key that was just read survives the
    next [put] of another key: on a level that holds at least two keys,
    after a [get] of [key] the victim of the following [put] is not [key],
    and [key] still has its value. *)
Theorem lru_level_keeps_key_just_read
    (key v key2 v2 r : string) (l l1 l2 : CacheLevel.t) (s : LRUEvictionPolicy.t) :
  level_inv l →
  CacheLevel.evictionPolicy l = Some (LRU s) →
  CacheLevel.data l !! key = Some v →
  (2 ≤ size (CacheLevel.data l))%nat →
  CacheLevel.get key l = Some (r, l1) →
  key2 ≠ key →
  CacheLevel.put key2 v2 l1 = Some l2 →
  r = v ∧ CacheLevel.data l2 !! key = Some v.
Proof.
  intros (p & Hp' & Hwf & Htr) Hp Hv Hsize Hget Hne Hput.
  rewrite Hp in Hp'. injection Hp' as <-. simpl in Hwf, Htr.
  unfold CacheLevel.get in Hget. rewrite Hv, Hp in Hget. simpl in Hget.
  injection Hget as <- <-. split; [done|].
  unfold CacheLevel.put in Hput. simpl in Hput.
  destruct (decide _) as [_|_] in Hput.
  - destruct (LRUEvictionPolicy.evict (LRUEvictionPolicy.access key s))
      as [[victim s2]|] eqn:Hev; [|done].
    simpl in Hput. injection Hput as <-. simpl.
    rewrite lookup_insert_ne by done.
    assert (Hvictim : victim ≠ key).
    { unfold LRUEvictionPolicy.evict in Hev.
      rewrite (lru_access_order key s Hwf) in Hev.
      assert (Hother : ∃ k', k' ∈ filter (λ x, x ≠ key) (LRUEvictionPolicy.accessOrder s)).
      { assert (Hdel : delete key (CacheLevel.data l) ≠ ∅).
        { apply map_size_non_empty_iff. rewrite map_size_delete_Some by eauto. lia. }
        apply map_choose in Hdel as (k' & v' & [Hk' Hv']%lookup_delete_Some).
        exists k'. apply list_elem_of_filter. split; [done|].
        apply (proj2 Hwf). unfold LRUEvictionPolicy.tracked in Htr. rewrite Htr.
        apply elem_of_dom. eauto. }
      destruct Hother as [k' Hk'].
      destruct (filter (λ x, x ≠ key) (LRUEvictionPolicy.accessOrder s))
        as [|a rest] eqn:Ef; [by apply not_elem_of_nil in Hk'|].
      simpl in Hev. injection Hev as <- _.
      assert (Ha : a ∈ filter (λ x, x ≠ key) (LRUEvictionPolicy.accessOrder s))
        by (rewrite Ef; by left).
      by apply list_elem_of_filter in Ha as [Ha _]. }
    by rewrite lookup_delete_ne.
  - simpl in Hput. injection Hput as <-. simpl. by rewrite lookup_insert_ne.
Qed.

(** In the level of [main], full with A, B, C, reading A makes the [put] of
    D evict B instead of A. *)
Lemma lru_level_keeps_key_just_read_witness :
  ∃ l1 l2,
    CacheLevel.get "A" demo_level = Some ("1"%string, l1)
    ∧ CacheLevel.put "D" "4" l1 = Some l2
    ∧ CacheLevel.data l2 !! "A"%string = Some "1"%string
    ∧ CacheLevel.data l2 !! "B"%string = None.
Proof.
  assert (Hget : is_Some (CacheLevel.get "A" demo_level)) by (vm_compute; eauto).
  destruct Hget as [[r l1] Hget].
  assert (Hput : is_Some (CacheLevel.put "D" "4" l1)).
  { vm_compute in Hget. injection Hget as <- <-. vm_compute. eauto. }
  destruct Hput as [l2 Hput].
  destruct (lru_level_keeps_key_just_read "A" "1" "D" "4" r demo_level l1 l2
              (lru_run LRUEvictionPolicy.init ["A"; "B"; "C"]%string))
    as [-> HA].
  - destruct (reachable_inv demo_state demo_state_reachable) as [Hall _].
    apply (Hall 0%nat). vm_compute. reflexivity.
  - vm_compute. reflexivity.
  - vm_compute. reflexivity.
  - vm_compute. lia.
  - exact Hget.
  - discriminate.
  - exact Hput.
  - exists l1, l2. split; [exact Hget|]. split; [exact Hput|]. split; [exact HA|].
    vm_compute in Hget. injection Hget as <-.
    vm_compute in Hput. injection Hput as <-. vm_compute. reflexivity.
Defined.

(** X9.  Under the frequency policy a key that was accessed more often than
    some other key of the level survives the [put] of another key: the
    victim, if any, is a key of minimal count. *)
Theorem lfu_level_keeps_more_frequent_key
    (key other key2 v2 : string) (f f' : Z)
    (l l' : CacheLevel.t) (s : LFUEvictionPolicy.t) :
  level_inv l →
  CacheLevel.evictionPolicy l = Some (LFU s) →
  LFUEvictionPolicy.frequencyMap s !! key = Some f →
  LFUEvictionPolicy.frequencyMap s !! other = Some f' →
  f' < f →
  key2 ≠ key →
  CacheLevel.put key2 v2 l = Some l' →
  CacheLevel.data l' !! key = CacheLevel.data l !! key.
Proof.
  intros (p & Hp' & Hwf & Htr) Hp Hf Hf' Hlt Hne Hput.
  rewrite Hp in Hp'. injection Hp' as <-. simpl in Hwf.
  remember (LFU s) as p eqn:Ep.
  unfold CacheLevel.put in Hput. rewrite Hp in Hput. simpl in Hput.
  destruct (decide (CacheLevel.full l)) as [_|_].
  - destruct (policy_evict p) as [[victim p1]|] eqn:Hev; [|done]. simpl in Hput.
    destruct (policy_access key2 p1) as [p2|]; [|done]. simpl in Hput.
    injection Hput as <-. simpl. rewrite lookup_insert_ne by done.
    subst p. simpl in Hev. injection Hev as <- _.
    assert (Hvictim : (LFUEvictionPolicy.evict s).1 ≠ key).
    { destruct (lfu_evict_in_min s (map_to_list (LFUEvictionPolicy.frequencyMap s)) Hwf
                  (reflexivity _)) as (f0 & o0 & Hf0 & _ & Hmin).
      { intros He. rewrite He in Hf. by rewrite lookup_empty in Hf. }
      fold (LFUEvictionPolicy.evict s) in Hf0.
      intros Heq. rewrite Heq, Hf in Hf0. injection Hf0 as <-.
      assert (Ho' : is_Some (LFUEvictionPolicy.keyOrder s !! other)).
      { apply elem_of_dom. rewrite (proj1 Hwf). apply elem_of_dom. eauto. }
      destruct Ho' as [o' Ho'].
      destruct (Hmin other f' o' Hf' Ho'); lia. }
    by rewrite lookup_delete_ne.
  - simpl in Hput. destruct (policy_access key2 p) as [p2|]; [|done].
    simpl in Hput. injection Hput as <-. simpl. by rewrite lookup_insert_ne.
Qed.

(** In the sample level a was read once more than b; the [put] of c evicts
    b and keeps a. *)
Lemma lfu_level_keeps_more_frequent_key_witness :
  ∃ l',
    CacheLevel.put "c" "3" lfu_level = Some l'
    ∧ CacheLevel.data l' !! "a"%string = Some "1"%string
    ∧ CacheLevel.data l' !! "b"%string = None.
Proof.
  assert (Hput : is_Some (CacheLevel.put "c" "3" lfu_level)) by (vm_compute; eauto).
  destruct Hput as [l' Hput]. exists l'. split; [exact Hput|].
  assert (Hinv : level_inv lfu_level).
  { apply (level_steps_inv (CacheLevel.new 2 (MultilevelCacheSystem.make_policy "LFU"))).
    - eapply rtc_l; [eapply (step_put "a" "1"); vm_compute; reflexivity|].
      eapply rtc_l; [eapply (step_put "b" "2"); vm_compute; reflexivity|].
      eapply rtc_l; [eapply (step_get "a"); vm_compute; reflexivity|].
      vm_compute. apply rtc_refl.
    - apply new_inv. by right. }
  split.
  - rewrite (lfu_level_keeps_more_frequent_key "a" "b" "c" "3" 2 1 lfu_level l'
               (default LFUEvictionPolicy.init
                  (lfu_run LFUEvictionPolicy.init ["a"; "b"; "a"]%string))
               Hinv).
    + vm_compute. reflexivity.
    + vm_compute. reflexivity.
    + vm_compute. reflexivity.
    + vm_compute. reflexivity.
    + lia.
    + discriminate.
    + exact Hput.
  - vm_compute in Hput. injection Hput as <-. vm_compute. reflexivity.
Defined.

(** ** The policies over a history of calls *)

Lemma lfu_run_None keys :
  foldl (λ r k, r ≫= LFUEvictionPolicy.access k) None keys = None.
Proof. induction keys as [|k keys IH]; [done|]. simpl. apply IH. Qed.

Lemma lfu_run_cons s0 k keys :
  lfu_run s0 (k :: keys) = LFUEvictionPolicy.access k s0 ≫= λ s1, lfu_run s1 keys.
Proof.
  unfold lfu_run. simpl. destruct (LFUEvictionPolicy.access k s0); simpl; [done|].
  apply lfu_run_None.
Qed.

Lemma lfu_access_result key s s' :
  LFUEvictionPolicy.access key s = Some s' →
  s' = LFUEvictionPolicy.mk
         (<[key := default 0 (LFUEvictionPolicy.frequencyMap s !! key) + 1]>
            (LFUEvictionPolicy.frequencyMap s))
         (<[key := LFUEvictionPolicy.currentTime s]> (LFUEvictionPolicy.keyOrder s))
         (LFUEvictionPolicy.currentTime s + 1).
Proof.
  unfold LFUEvictionPolicy.access, int_incr.
  destruct (decide (default 0 (LFUEvictionPolicy.frequencyMap s !! key) < INT_MAX)); [|done].
  simpl. destruct (decide (LFUEvictionPolicy.currentTime s < INT_MAX)); [|done].
  simpl. by intros [= <-].
Qed.

(** X10.  The frequency policy records its history: after a defined run of
    [access] calls the counter has advanced by the number of calls, the
    count of every key has grown by the number of its accesses, the
    sequence number of a key accessed in the run is the counter value at
    its last access, and a key not accessed keeps its sequence number. *)
Theorem lfu_run_history (s0 s : LFUEvictionPolicy.t) (keys : list string) :
  lfu_run s0 keys = Some s →
  LFUEvictionPolicy.currentTime s
  = LFUEvictionPolicy.currentTime s0 + Z.of_nat (length keys)
  ∧ (∀ k, default 0 (LFUEvictionPolicy.frequencyMap s !! k)
          = default 0 (LFUEvictionPolicy.frequencyMap s0 !! k)
            + Z.of_nat (length (filter (λ x, x = k) keys)))
  ∧ (∀ k i, last_touch k keys = Some i →
       LFUEvictionPolicy.keyOrder s !! k
       = Some (LFUEvictionPolicy.currentTime s0 + Z.of_nat i))
  ∧ (∀ k, k ∉ keys →
       LFUEvictionPolicy.keyOrder s !! k = LFUEvictionPolicy.keyOrder s0 !! k).
Proof.
  revert s0. induction keys as [|x keys IH]; intros s0 Hrun.
  - injection Hrun as <-. simpl. split; [lia|]. split; [intros k; lia|].
    split; [done|done].
  - rewrite lfu_run_cons in Hrun.
    destruct (LFUEvictionPolicy.access x s0) as [s1|] eqn:Hacc; [|done].
    simpl in Hrun. apply lfu_access_result in Hacc.
    destruct (IH s1 Hrun) as (Ht & Hc & Ho & Hn). subst s1. simpl in *.
    split; [lia|]. split; [|split].
    + intros k. rewrite Hc. destruct (decide (x = k)) as [->|Hxk].
      * rewrite lookup_insert_eq, filter_cons_True by done. simpl. lia.
      * rewrite lookup_insert_ne, filter_cons_False by done. lia.
    + intros k i. destruct (last_touch k keys) as [i'|] eqn:El.
      * intros [= <-]. rewrite (Ho k i' El). f_equal. lia.
      * destruct (decide (x = k)) as [->|Hxk]; [|done]. intros [= <-].
        rewrite Hn by (by apply last_touch_None).
        rewrite lookup_insert_eq. f_equal. lia.
    + intros k [Hxk Hk]%not_elem_of_cons. rewrite Hn by done.
      by rewrite lookup_insert_ne.
Qed.

(** In the sample state a and c were accessed twice and b once, c last. *)
Lemma lfu_run_history_witness :
  LFUEvictionPolicy.currentTime lfu_sample = 5
  ∧ LFUEvictionPolicy.frequencyMap lfu_sample !! "a"%string = Some 2
  ∧ LFUEvictionPolicy.keyOrder lfu_sample !! "c"%string = Some 4.
Proof.
  assert (Hrun : lfu_run LFUEvictionPolicy.init ["a"; "b"; "c"; "a"; "c"]%string
                 = Some lfu_sample) by (vm_compute; reflexivity).
  destruct (lfu_run_history _ _ _ Hrun) as (Ht & _ & Ho & _).
  split; [exact Ht|]. split; [vm_compute; reflexivity|].
  exact (Ho "c"%string 4%nat eq_refl).
Defined.

Lemma lru_drain_all (order : list string) (tracked : gset string) :
  LRUEvictionPolicy.wf (LRUEvictionPolicy.mk order tracked) →
  lru_drain (length order) (LRUEvictionPolicy.mk order tracked)
  = Some (order, LRUEvictionPolicy.init).
Proof.
  revert tracked. induction order as [|x order IH]; intros tracked Hwf.
  - simpl. do 2 f_equal. unfold LRUEvictionPolicy.init. f_equal.
    apply set_eq. intros k. rewrite (proj2 Hwf k). simpl.
    split; [intros []%not_elem_of_nil | intros []%not_elem_of_empty].
  - assert (Hwf' : LRUEvictionPolicy.wf (LRUEvictionPolicy.mk order (tracked ∖ {[x]})))
      by (by apply (lru_evict_wf (LRUEvictionPolicy.mk (x :: order) tracked) x)).
    simpl. unfold LRUEvictionPolicy.evict. simpl. by rewrite (IH _ Hwf').
Qed.

(** X11.  The recency policy gives its keys back in the order of their last
    access: after any run of [access] calls on the empty policy, as many
    [evict] calls as there are distinct keys return each distinct key once,
    the key whose last access is oldest first ([remove_dups] keeps the last
    occurrence of every key), and leave the empty policy, on which one more
    [evict] has no defined result. *)
Theorem lru_drain_in_access_order (keys : list string) :
  lru_drain (length (remove_dups keys)) (lru_run LRUEvictionPolicy.init keys)
  = Some (remove_dups keys, LRUEvictionPolicy.init)
  ∧ LRUEvictionPolicy.evict LRUEvictionPolicy.init = None.
Proof.
  split; [|done].
  pose proof (lru_run_wf LRUEvictionPolicy.init keys lru_init_wf) as Hwf.
  pose proof (lru_run_order LRUEvictionPolicy.init keys lru_init_wf) as Hord.
  simpl in Hord.
  destruct (lru_run LRUEvictionPolicy.init keys) as [order tracked].
  simpl in Hord. subst order. by apply lru_drain_all.
Qed.

(** X12.  Eviction forgets the count of a key: when the victim of [evict]
    is accessed again it starts over with count 1. *)
Theorem lfu_evicted_key_starts_over (s : LFUEvictionPolicy.t) :
  LFUEvictionPolicy.wf s →
  LFUEvictionPolicy.tracked s ≠ ∅ →
  LFUEvictionPolicy.currentTime s < INT_MAX →
  (LFUEvictionPolicy.evict s).1 ∈ LFUEvictionPolicy.tracked s
  ∧ ((LFUEvictionPolicy.evict s).1
     ∉ LFUEvictionPolicy.tracked (LFUEvictionPolicy.evict s).2)
  ∧ ∃ s2,
      LFUEvictionPolicy.access (LFUEvictionPolicy.evict s).1 (LFUEvictionPolicy.evict s).2
      = Some s2
      ∧ LFUEvictionPolicy.frequencyMap s2 !! (LFUEvictionPolicy.evict s).1 = Some 1.
Proof.
  intros Hwf Hne Htime.
  destruct (lfu_evict_tracked s Hwf) as [Htr Hin].
  pose proof (lfu_evict_wf s Hwf) as Hwf1.
  split; [by apply Hin|]. split.
  { rewrite Htr. rewrite elem_of_difference, elem_of_singleton. tauto. }
  assert (H2 : (LFUEvictionPolicy.evict s).2
               = LFUEvictionPolicy.mk
                   (delete (LFUEvictionPolicy.evict s).1 (LFUEvictionPolicy.frequencyMap s))
                   (delete (LFUEvictionPolicy.evict s).1 (LFUEvictionPolicy.keyOrder s))
                   (LFUEvictionPolicy.currentTime s)).
  { unfold LFUEvictionPolicy.evict. apply (lfu_evict_in_state s _ Hwf (reflexivity _)). }
  assert (Htime1 : LFUEvictionPolicy.currentTime (LFUEvictionPolicy.evict s).2 < INT_MAX)
    by (by rewrite H2).
  rewrite (lfu_access_defined _ (LFUEvictionPolicy.evict s).1 Hwf1 Htime1).
  eexists. split; [reflexivity|].
  cbn [LFUEvictionPolicy.frequencyMap]. rewrite lookup_insert_eq. f_equal.
  rewrite H2. cbn [LFUEvictionPolicy.frequencyMap]. by rewrite lookup_delete_eq.
Qed.

Lemma lfu_evicted_key_starts_over_witness :
  LFUEvictionPolicy.wf lfu_sample
  ∧ (LFUEvictionPolicy.evict lfu_sample).1 = "b"%string
  ∧ ∃ s2,
      LFUEvictionPolicy.access "b" (LFUEvictionPolicy.evict lfu_sample).2 = Some s2
      ∧ LFUEvictionPolicy.frequencyMap s2 !! "b"%string = Some 1.
Proof.
  assert (Hwf : LFUEvictionPolicy.wf lfu_sample).
  { apply (lfu_run_wf LFUEvictionPolicy.init ["a"; "b"; "c"; "a"; "c"]%string);
      [apply lfu_init_wf | vm_compute; reflexivity]. }
  assert (Hb : (LFUEvictionPolicy.evict lfu_sample).1 = "b"%string)
    by (vm_compute; reflexivity).
  split; [exact Hwf|]. split; [exact Hb|].
  destruct (lfu_evicted_key_starts_over lfu_sample Hwf) as (_ & _ & s2 & Hacc & Hf).
  - vm_compute. discriminate.
  - vm_compute. reflexivity.
  - rewrite Hb in Hacc, Hf. exists s2. split; [exact Hacc | exact Hf].
Defined.

(** X13.  Both policies keep their representation sound under every mix of
    defined [access] and [evict] calls from the fresh object: the recency
    list holds every tracked key exactly once, and the frequency policy has
    a count and a sequence number for the same keys, counts between 1 and
    the counter, and sequence numbers below the counter that no two keys
    share. *)
Theorem policy_steps_keep_invariant (name : string) (p0 p : EvictionPolicy) :
  MultilevelCacheSystem.make_policy name = Some p0 →
  rtc policy_step p0 p →
  policy_wf p.
Proof.
  intros Hname Hsteps.
  assert (Hwf0 : policy_wf p0).
  { unfold MultilevelCacheSystem.make_policy in Hname.
    destruct (decide (name = "LRU"%string)); [injection Hname as <-; apply lru_init_wf|].
    destruct (decide (name = "LFU"%string)); [injection Hname as <-; apply lfu_init_wf|].
    done. }
  clear Hname. induction Hsteps as [|p1 p2 p3 Hstep _ IH]; [done|].
  apply IH. destruct Hstep as [key q q' Hacc|q victim q' Hev].
  - by apply (policy_access_inv key q q').
  - by apply (policy_evict_inv q victim q').
Qed.

(** Access of a, b, a, then [evict] (of b), then access of c, on the fresh
    recency policy. *)
Lemma policy_steps_keep_invariant_witness :
  ∃ p, rtc policy_step (LRU LRUEvictionPolicy.init) p
       ∧ policy_tracked p = {["a"%string; "c"%string]}
       ∧ policy_wf p.
Proof.
  assert (Hrun : ∃ p, rtc policy_step (LRU LRUEvictionPolicy.init) p
                      ∧ policy_tracked p = {["a"%string; "c"%string]}).
  { eexists. split.
    - eapply rtc_l; [eapply (pstep_access "a"); vm_compute; reflexivity|].
      eapply rtc_l; [eapply (pstep_access "b"); vm_compute; reflexivity|].
      eapply rtc_l; [eapply (pstep_access "a"); vm_compute; reflexivity|].
      eapply rtc_l; [eapply pstep_evict; vm_compute; reflexivity|].
      eapply rtc_l; [eapply (pstep_access "c"); vm_compute; reflexivity|].
      apply rtc_refl.
    - vm_compute. reflexivity. }
  destruct Hrun as (p & Hsteps & Htr). exists p.
  split; [exact Hsteps|]. split; [exact Htr|].
  exact (policy_steps_keep_invariant "LRU" (LRU LRUEvictionPolicy.init) p eq_refl Hsteps).
Defined.

(** ** The reachable states of the chain *)

Lemma put_size_bound (key value : string) (l l' : CacheLevel.t) :
  level_inv l → 0 < CacheLevel.size l ≤ INT_MAX →
  Z.of_nat (size (CacheLevel.data l)) ≤ CacheLevel.size l →
  CacheLevel.put key value l = Some l' →
  Z.of_nat (size (CacheLevel.data l')) ≤ CacheLevel.size l'.
Proof.
  intros Hinv Hcap Hsize Hput.
  destruct (put_cases key value l l' Hinv Hput) as (p' & d & -> & _ & _ & _ & Hd).
  simpl. pose proof (map_size_insert_le key value d) as Hle.
  destruct Hd as [(Hfull & victim & -> & Hin)|(Hnfull & ->)].
  - specialize (Hin (full_nonempty l Hcap Hfull)). apply elem_of_dom in Hin.
    rewrite map_size_delete_Some in Hle by done.
    pose proof (full_nonempty l Hcap Hfull) as Hne.
    apply map_size_non_empty_iff in Hne. lia.
  - unfold CacheLevel.full in Hnfull. rewrite to_size_t_id in Hnfull by lia. lia.
Qed.

Lemma reachable_bound (c : MultilevelCacheSystem.t) :
  reachable c →
  ∀ i l, c !! i = Some l →
    Z.of_nat (size (CacheLevel.data l)) ≤ CacheLevel.size l.
Proof.
  induction 1 as [|c capacity name Hr IH Hcap Hname|c level Hr IH
                  |c key r c' Hr IH Hget|c key value c' Hr IH Hput].
  - unfold MultilevelCacheSystem.init. intros i l Hl. by rewrite lookup_nil in Hl.
  - unfold MultilevelCacheSystem.addCacheLevel.
    intros i l [Hl|[_ Hl]]%lookup_app_Some; [by apply (IH i)|].
    apply list_lookup_singleton_Some in Hl as [_ <-]. simpl.
    rewrite map_size_empty. lia.
  - unfold MultilevelCacheSystem.removeCacheLevel.
    destruct (decide _) as [_|_]; [|done].
    intros i l. rewrite list_lookup_delete. destruct (decide _); apply IH.
  - destruct (sys_inv_get key c r c' (reachable_inv c Hr) Hget)
      as [(_ & -> & _)|(l0 & l0' & Hl0 & Hget0 & ->)].
    + intros i l Hl. by rewrite lookup_nil in Hl.
    + destruct (get_result key l0 r l0' Hget0) as (_ & Hdata & Hsize & _).
      intros i l Hl. destruct i as [|i].
      * rewrite list_lookup_insert_eq in Hl by (by apply lookup_lt_Some in Hl0).
        injection Hl as <-. rewrite Hdata, Hsize. by apply (IH 0%nat).
      * rewrite list_lookup_insert_ne in Hl by done. by apply (IH (S i)).
  - unfold MultilevelCacheSystem.put in Hput.
    destruct (c !! 0%nat) as [l0|] eqn:Hl0; [|done]. simpl in Hput.
    destruct (CacheLevel.put key value l0) as [l0'|] eqn:E; [|done].
    injection Hput as <-.
    destruct (proj1 (reachable_inv c Hr) 0%nat l0 Hl0) as [Hinv Hcap].
    intros i l Hl. destruct i as [|i].
    + rewrite list_lookup_insert_eq in Hl by (by apply lookup_lt_Some in Hl0).
      injection Hl as <-.
      apply (put_size_bound key value l0); [done|done| |done]. by apply (IH 0%nat).
    + rewrite list_lookup_insert_ne in Hl by done. by apply (IH (S i)).
Qed.

(** X14.  In every state the chain reaches through its public operations,
    levels being added with a positive capacity and a known policy name,
    every level holds at most as many keys as its capacity, its policy
    tracks exactly the keys of its mapping, and only level 0 holds anything:
    the mapping of every other level is empty. *)
Theorem reachable_levels (c : MultilevelCacheSystem.t) :
  reachable c →
  ∀ (i : nat) l, c !! i = Some l →
    0 < CacheLevel.size l ≤ INT_MAX
    ∧ Z.of_nat (size (CacheLevel.data l)) ≤ CacheLevel.size l
    ∧ (∃ p, CacheLevel.evictionPolicy l = Some p
            ∧ policy_tracked p = dom (CacheLevel.data l))
    ∧ (i ≠ 0%nat → CacheLevel.data l = ∅).
Proof.
  intros Hr i l Hl. destruct (reachable_inv c Hr) as [Hall Htail].
  destruct (Hall i l Hl) as [(p & Hp & _ & Htr) Hcap].
  split; [done|]. split; [by apply (reachable_bound c Hr i)|].
  split; [by exists p|]. intros Hi. destruct i as [|i]; [done|]. by apply (Htail i).
Qed.

Lemma reachable_levels_witness :
  reachable demo_state
  ∧ ∃ l0 l1,
      demo_state = [l0; l1]
      ∧ Z.of_nat (size (CacheLevel.data l0)) ≤ CacheLevel.size l0
      ∧ CacheLevel.data l1 = ∅.
Proof.
  split; [exact demo_state_reachable|].
  assert (Hshape : ∃ l0 l1, demo_state = [l0; l1]).
  { do 2 eexists. vm_compute. reflexivity. }
  destruct Hshape as (l0 & l1 & Hshape). exists l0, l1. split; [exact Hshape|].
  pose proof (reachable_levels demo_state demo_state_reachable) as H.
  rewrite Hshape in H. split.
  - destruct (H 0%nat l0 eq_refl) as (_ & Hb & _). exact Hb.
  - destruct (H 1%nat l1 eq_refl) as (_ & _ & _ & He). by apply He.
Defined.

(** X15.  In a reachable state [get] answers from level 0 alone: its result
    is what level 0 stores for the key, or the empty string when it stores
    nothing (or the chain has no level); no mapping of any level changes
    and every level but the first is left exactly as it was, so no value is
    ever promoted. *)
Theorem reachable_get_reads_first_level
    (key r : string) (c c' : MultilevelCacheSystem.t) :
  reachable c →
  MultilevelCacheSystem.get key c = Some (r, c') →
  r = default EmptyString (c !! 0%nat ≫= λ l, CacheLevel.data l !! key)
  ∧ length c' = length c
  ∧ (∀ i : nat, CacheLevel.data <$> c' !! i = CacheLevel.data <$> c !! i)
  ∧ (∀ i : nat, c' !! S i = c !! S i).
Proof.
  intros Hr Hget.
  destruct (sys_inv_get key c r c' (reachable_inv c Hr) Hget)
    as [(-> & -> & ->)|(l0 & l0' & Hl0 & Hget0 & ->)]; [done|].
  destruct (get_result key l0 r l0' Hget0) as (-> & Hdata & _).
  rewrite Hl0. simpl. split; [done|]. split; [apply length_insert|]. split.
  - intros i. destruct i as [|i].
    + rewrite list_lookup_insert_eq by (by apply lookup_lt_Some in Hl0).
      rewrite Hl0. simpl. by rewrite Hdata.
    + by rewrite list_lookup_insert_ne.
  - intros i. by rewrite list_lookup_insert_ne.
Qed.

Lemma reachable_get_reads_first_level_witness :
  reachable demo_state
  ∧ ∃ c', MultilevelCacheSystem.get "B" demo_state = Some ("2"%string, c')
          ∧ length c' = length demo_state.
Proof.
  split; [exact demo_state_reachable|].
  assert (Hget : is_Some (MultilevelCacheSystem.get "B" demo_state))
    by (vm_compute; eauto).
  destruct Hget as [[r c'] Hget].
  destruct (reachable_get_reads_first_level "B" r demo_state c'
              demo_state_reachable Hget) as (Hres & Hlen & _).
  exists c'. split; [|exact Hlen].
  rewrite Hget. f_equal. f_equal. rewrite Hres. vm_compute. reflexivity.
Defined.

(** X16.  Removing level 1 from a reachable chain loses every entry: the
    levels that move up are empty, so afterwards [get] answers every key
    with the empty string and changes nothing. *)
Theorem remove_first_level_loses_all (key : string) (c : MultilevelCacheSystem.t) :
  reachable c →
  MultilevelCacheSystem.get key (MultilevelCacheSystem.removeCacheLevel 1 c)
  = Some (EmptyString, MultilevelCacheSystem.removeCacheLevel 1 c).
Proof.
  intros Hr. destruct (reachable_inv c Hr) as [_ Htail].
  apply scan_absent; [simpl; lia|].
  intros j l _ Hl. unfold MultilevelCacheSystem.removeCacheLevel in Hl.
  destruct c as [|l0 rest].
  - destruct (decide _) in Hl; by rewrite ?lookup_nil in Hl.
  - destruct (decide _) as [_|Hn] in Hl.
    + simpl in Hl. rewrite (Htail j l Hl). apply lookup_empty.
    + exfalso. apply Hn. split; [lia|].
      rewrite to_size_t_id by (unfold INT_MAX; lia). simpl. lia.
Qed.

Lemma remove_first_level_loses_all_witness :
  reachable demo_state
  ∧ fst <$> MultilevelCacheSystem.get "A" demo_state = Some "1"%string
  ∧ fst <$> MultilevelCacheSystem.get "A"
              (MultilevelCacheSystem.removeCacheLevel 1 demo_state)
    = Some EmptyString.
Proof.
  split; [exact demo_state_reachable|]. split; [vm_compute; reflexivity|].
  by rewrite (remove_first_level_loses_all "A" demo_state demo_state_reachable).
Defined.

(** X17.  The reachable states are safe for the two calls: as long as the
    policy of level 0 can record one more access, [get] of any key has a
    defined result, and so has [put] of any entry on a chain with at least
    one level; in particular [put] never asks a policy without keys for a
    victim and never meets a null policy. *)
Theorem reachable_calls_defined (c : MultilevelCacheSystem.t) :
  reachable c →
  (∀ l0, c !! 0%nat = Some l0 → level_headroom 1 l0) →
  (∀ key, is_Some (MultilevelCacheSystem.get key c))
  ∧ (c ≠ [] → ∀ key value, is_Some (MultilevelCacheSystem.put key value c)).
Proof.
  intros Hr Hroom. destruct (reachable_inv c Hr) as [Hall Htail].
  destruct c as [|l0 rest].
  - split; [intros key; by eexists|done].
  - destruct (Hall 0%nat l0 eq_refl) as [Hinv Hcap].
    specialize (Hroom l0 eq_refl). split.
    + intros key. destruct (get_defined key l0 Hinv Hroom) as [[r l0'] Hget].
      eexists. apply (get_first_level key (l0 :: rest) l0 r l0' eq_refl); [|done].
      intros i l Hl. rewrite (Htail i l Hl). apply lookup_empty.
    + intros _ key value.
      destruct (put_defined key value l0 Hinv Hcap Hroom) as [l0' Hput].
      unfold MultilevelCacheSystem.put. simpl. rewrite Hput. by eexists.
Qed.

Lemma reachable_calls_defined_witness :
  reachable demo_state
  ∧ is_Some (MultilevelCacheSystem.get "Z" demo_state)
  ∧ is_Some (MultilevelCacheSystem.put "Z" "26" demo_state).
Proof.
  split; [exact demo_state_reachable|].
  destruct (reachable_calls_defined demo_state demo_state_reachable) as [Hget Hput].
  - intros l0 Hl0 p Hp. vm_compute in Hl0. injection Hl0 as <-.
    injection Hp as <-. exact I.
  - split; [apply Hget|]. apply Hput. vm_compute. discriminate.
Defined.



(** ** Round trip on one level *)

(** X19.  On any level, whatever its history, the [get] that follows a
    completed [put] or an [update] of the same key returns the value just
    written, whenever it returns; and on a level of positive capacity whose
    policy tracks the keys of its mapping and can record two more accesses
    both the [put] and the [get] return. *)
Theorem level_write_then_get (key value : string) (l : CacheLevel.t) :
  (∀ l' r l'', CacheLevel.put key value l = Some l' →
     CacheLevel.get key l' = Some (r, l'') → r = value)
  ∧ (∀ r l'', CacheLevel.get key (CacheLevel.update key value l) = Some (r, l'') →
       r = value)
  ∧ (level_inv l → 0 < CacheLevel.size l ≤ INT_MAX → level_headroom 2 l →
     ∃ l' l'', CacheLevel.put key value l = Some l'
               ∧ CacheLevel.get key l' = Some (value, l'')).
Proof.
  split; [|split].
  - intros l' r l'' Hput Hget.
    destruct (get_result key l' r l'' Hget) as (-> & _).
    by rewrite (put_stores key value l l' Hput).
  - intros r l'' Hget.
    destruct (get_result key _ r l'' Hget) as (-> & _).
    simpl. by rewrite lookup_insert_eq.
  - intros Hinv Hcap Hroom.
    destruct (put_defined key value l Hinv Hcap) as [l' Hput].
    { intros p Hp. apply (policy_headroom_mono 2); [lia|]. by apply Hroom. }
    destruct (put_cases key value l l' Hinv Hput) as (p' & d & Hl' & _ & _ & Hroom' & _).
    destruct (put_inv key value l l' Hinv Hput) as (Hinv' & _ & Hdata').
    destruct (get_defined key l' Hinv') as [[r l''] Hget].
    { intros p Hp. rewrite Hl' in Hp. injection Hp as <-.
      apply (policy_headroom_mono (2 - 1)); [lia|]. by apply Hroom'. }
    destruct (get_result key l' r l'' Hget) as (Hr & _).
    rewrite Hdata' in Hr. simpl in Hr. subst r. by exists l', l''.
Qed.

(** The level that received a through [update] only answers a with the
    value written; the sample frequency level takes and returns a new
    entry. *)
Lemma level_write_then_get_witness :
  fst <$> CacheLevel.get "a" untracked_level = Some "1"%string
  ∧ level_inv lfu_level
  ∧ ∃ l' l'', CacheLevel.put "c" "3" lfu_level = Some l'
              ∧ CacheLevel.get "c" l' = Some ("3"%string, l'').
Proof.
  split; [vm_compute; reflexivity|].
  assert (Hinv : level_inv lfu_level).
  { apply (level_steps_inv (CacheLevel.new 2 (MultilevelCacheSystem.make_policy "LFU"))).
    - eapply rtc_l; [eapply (step_put "a" "1"); vm_compute; reflexivity|].
      eapply rtc_l; [eapply (step_put "b" "2"); vm_compute; reflexivity|].
      eapply rtc_l; [eapply (step_get "a"); vm_compute; reflexivity|].
      vm_compute. apply rtc_refl.
    - apply new_inv. by right. }
  split; [exact Hinv|].
  destruct (level_write_then_get "c" "3" lfu_level) as (_ & _ & Hdef).
  apply Hdef; [exact Hinv| |].
  - vm_compute. split; [reflexivity|discriminate].
  - intros p Hp. vm_compute in Hp. injection Hp as <-. vm_compute. discriminate.
Defined.
